(** * Verification of the rclone VFS core: byte-range sets, the File node,
      the read/write handle and the open-mode selector.

    The development is a shallow embedding of three Go sources:
    - [lib/ranges/ranges.go]  (modules [Range] and [Ranges]);
    - the read/write file handle of package [vfs] (module [VFS], the
      [RWFileHandle] operations);
    - the file node of package [vfs] (module [VFS], the [File] operations).

    Go's [int64] and [int] values are integers of [Z] with the two's
    complement wrap-around written out ([Int64.wrap]); slices are lists,
    and an index outside a slice, which makes the Go runtime panic, is the
    [None] of an [option] result. *)

From Stdlib Require Import ZArith Lia Bool.
From stdpp Require Import base tactics option list numbers strings gmap sets.

Open Scope Z_scope.

(** ** Machine integers *)

Module Int64.

Definition min_int : Z := - 2 ^ 63.
Definition max_int : Z := 2 ^ 63 - 1.

(** The value an [int64] holds after an arithmetic result [z]. *)
Definition wrap (z : Z) : Z := (z + 2 ^ 63) mod 2 ^ 64 - 2 ^ 63.

Definition add (a b : Z) : Z := wrap (a + b).
Definition sub (a b : Z) : Z := wrap (a - b).

Definition in_range (z : Z) : Prop := min_int <= z <= max_int.

End Int64.

Module Int32.

(** The value an [int32] holds after an arithmetic result [z]. *)
Definition wrap (z : Z) : Z := (z + 2 ^ 31) mod 2 ^ 32 - 2 ^ 31.

Definition add (a b : Z) : Z := wrap (a + b).

End Int32.

(** ** A single byte range ([type Range struct]) *)

Module Range.

Record t : Type := mk { Pos : Z; Size : Z }.

#[global] Instance t_eq_dec : EqDecision t.
Proof. solve_decision. Defined.

(** The zero value [Range{}]. *)
Definition zero : t := mk 0 0.

#[global] Instance t_inhabited : Inhabited t := populate zero.

(** [func (r Range) End() int64] *)
Definition End (r : t) : Z := Int64.add (Pos r) (Size r).

(** [func (r Range) IsEmpty() bool] *)
Definition IsEmpty (r : t) : bool := Size r <=? 0.

(** [func min(a, b int64) int64] *)
Definition min (a b : Z) : Z := if a <? b then a else b.

(** [func max(a, b int64) int64] *)
Definition max (a b : Z) : Z := if a >? b then a else b.

(** [func (r Range) Intersection(b Range) (intersection Range)]: the
    result is the zero value unless one range starts inside the other. *)
Definition Intersection (r b : t) : t :=
  if ((Pos r >=? Pos b) && (Pos r <? End b)) || ((Pos b >=? Pos r) && (Pos b <? End r))
  then
    let p := max (Pos r) (Pos b) in
    mk p (Int64.sub (min (End r) (End b)) p)
  else zero.

End Range.

(** ** Go slice primitives used by the range set *)

Module Slice.

Section Slice.
Context {A : Type}.

(** [copy(l[d:], l[s:])] on one backing array: the number of elements
    moved is the length of the shorter of the two slices. *)
Definition copy_within (d s : nat) (l : list A) : list A :=
  let n := Nat.min (length l - d) (length l - s) in
  take d l ++ take n (drop s l) ++ drop (d + n) l.

(** [l[i] = x]; [None] is the runtime panic of an index out of range. *)
Definition store (i : nat) (x : A) (l : list A) : option (list A) :=
  if decide (i < length l)%nat then Some (<[i:=x]> l) else None.

End Slice.

(** [sort.Search(n, f)] of the Go library: binary search for the least
    index in [0, n] from which [f] holds.  The loop halves [j - i], so [n]
    rounds are enough; [f] is only asked about indices below [n]. *)
Fixpoint Search_loop (fuel : nat) (i j : nat) (f : nat -> option bool) : option nat :=
  match fuel with
  | O => Some i
  | S fuel' =>
      if (i <? j)%nat then
        let h := ((i + j) / 2)%nat in
        b ← f h;
        if negb b then Search_loop fuel' (h + 1)%nat j f
        else Search_loop fuel' i h f
      else Some i
  end.

Definition Search (n : nat) (f : nat -> option bool) : option nat :=
  Search_loop n 0%nat n f.

End Slice.

(** ** The range set ([type Ranges []Range]) *)

Module Ranges.

Import Range.

Abbreviation t := (list Range.t).

(** [func merge(new, dst *Range) bool]: the boolean result together with
    the value left in [*dst]. *)
Definition merge (new dst : Range.t) : bool * Range.t :=
  if End new <? Pos dst then (false, dst)
  else
    let size' :=
      if End new >? End dst then Size new
      else Int64.add (Size dst) (Int64.sub (Pos dst) (Pos new)) in
    (true, mk (Pos new) size').

(** The [for j = i; j < len(ranges)-1; j++] loop of [coalesce]; [n] is the
    number of rounds left, [len(ranges) - 1 - j].  It returns [endChop]
    and the slice as the loop leaves it. *)
Fixpoint coalesce_loop (n : nat) (j endChop : nat) (ranges : t) : option (nat * t) :=
  match n with
  | O => Some (endChop, ranges)
  | S n' =>
      a ← ranges !! j;
      b ← ranges !! (j + 1)%nat;
      let '(merged, b') := merge a b in
      if negb merged then Some (endChop, ranges)
      else
        ranges' ← Slice.store (j + 1) b' ranges;
        coalesce_loop n' (j + 1)%nat (j + 1)%nat ranges'
  end.

(** [func (rs *Ranges) coalesce(i int)] *)
Definition coalesce (i : nat) (ranges : t) : option t :=
  '(startChop, ranges1) ←
    (if (0 <? i)%nat then
       a ← ranges !! (i - 1)%nat;
       b ← ranges !! i;
       let '(merged, b') := merge a b in
       if merged then
         ranges' ← Slice.store i b' ranges; Some ((i - 1)%nat, ranges')
       else Some (i, ranges)
     else Some (i, ranges));
  '(endChop, ranges2) ← coalesce_loop (length ranges1 - 1 - i) i i ranges1;
  if (startChop <? endChop)%nat then
    Some (take (length ranges2 - endChop + startChop)
               (Slice.copy_within startChop endChop ranges2))
  else Some ranges2.

(** [func (rs Ranges) search(r Range) int] *)
Definition search (rs : t) (r : Range.t) : option nat :=
  Slice.Search (length rs) (fun i => x ← rs !! i; Some (Pos x >=? Pos r)).

(** [func (rs *Ranges) Insert(r Range)]: the new value of [*rs]. *)
Definition Insert (r : Range.t) (ranges : t) : option t :=
  if IsEmpty r then Some ranges
  else if (length ranges =? 0)%nat then Some (ranges ++ [r])
  else
    i ← search ranges r;
    merged ←
      (if (i =? length ranges)%nat then Some None
       else
         d ← ranges !! i;
         let '(ok, d') := merge r d in
         if ok then Some (Some d') else Some None);
    match merged with
    | Some d' =>
        ranges' ← Slice.store i d' ranges;
        coalesce i ranges'
    | None =>
        let ranges1 := ranges ++ [zero] in
        let ranges2 := Slice.copy_within (i + 1) i ranges1 in
        ranges3 ← Slice.store i r ranges2;
        coalesce i ranges3
    end.

(** [func (rs Ranges) Find(r Range) (curr, next Range, present bool)] *)
Definition Find (rs : t) (r : Range.t) : option (Range.t * Range.t * bool) :=
  if IsEmpty r then Some (r, zero, false)
  else
    i ← search rs r;
    prev_hit ←
      (if (0 <? i)%nat then
         prev ← rs !! (i - 1)%nat;
         let intersection := Intersection prev r in
         if negb (IsEmpty intersection) then Some (Some intersection) else Some None
       else Some None);
    match prev_hit with
    | Some intersection =>
        Some (intersection,
              mk (End intersection) (Int64.sub (Size r) (Size intersection)),
              true)
    | None =>
        if (length rs <=? i)%nat then Some (r, zero, false)
        else
          found ← rs !! i;
          let intersection := Intersection found r in
          if IsEmpty intersection then Some (r, zero, false)
          else if Pos r <? Pos intersection then
            let curr := mk (Pos r) (Int64.sub (Pos intersection) (Pos r)) in
            Some (curr, mk (End curr) (Int64.sub (Size r) (Size curr)), false)
          else
            Some (intersection,
                  mk (End intersection) (Int64.sub (Size r) (Size intersection)),
                  true)
    end.

(** [func (rs Ranges) Present(r Range) (present bool)] *)
Definition Present (rs : t) (r : Range.t) : option bool :=
  if IsEmpty r then Some true
  else
    '(_, next, present) ← Find rs r;
    if negb present then Some false
    else if IsEmpty next then Some true
    else Some false.

(** The [for !r.IsEmpty()] loop of [Intersection].  The source loop has no
    bound; [fuel] counts the rounds allowed and the outer [None] says they
    did not suffice.  The inner [option] is the panic of an index out of
    range. *)
Fixpoint Intersection_loop (fuel : nat) (rs : t) (r : Range.t) (newRs : t)
  : option (option t) :=
  if IsEmpty r then Some (Some newRs)
  else
    match fuel with
    | O => None
    | S fuel' =>
        match Find rs r with
        | None => Some None
        | Some (curr, r', found) =>
            if found then
              match Insert curr newRs with
              | None => Some None
              | Some newRs' => Intersection_loop fuel' rs r' newRs'
              end
            else Intersection_loop fuel' rs r' newRs
        end
    end.

(** [func (rs Ranges) Intersection(r Range) (newRs Ranges)] *)
Definition Intersection (fuel : nat) (rs : t) (r : Range.t) : option (option t) :=
  if (length rs =? 0)%nat then Some (Some rs)
  else Intersection_loop fuel rs r [].

(** [func (rs Ranges) Size() (size int64)] *)
Definition Size (rs : t) : Z :=
  foldl (fun size r => Int64.add size (Range.Size r)) 0 rs.

End Ranges.

(** ** The VFS: data model *)

Module os.

(** Open flags of package [os] as the Go runtime defines them on Linux
    and on Windows. *)
Definition O_RDONLY : Z := 0.
Definition O_WRONLY : Z := 1.
Definition O_RDWR : Z := 2.
Definition O_CREATE : Z := 64.
Definition O_EXCL : Z := 128.
Definition O_TRUNC : Z := 512.
Definition O_APPEND : Z := 1024.

End os.

Module VFS.

(** Modelled from the spec: the access-mode mask of package [vfs], the
    three mutually exclusive access modes or-ed together. *)
Definition accessModeMask : Z := Z.lor (Z.lor os.O_RDONLY os.O_WRONLY) os.O_RDWR.

(** Go's [flags & bits != 0]. *)
Definition has (flags bits : Z) : bool := negb (Z.land flags bits =? 0).

(** Go's [flags &^ bits]. *)
Definition clear (flags bits : Z) : Z := Z.ldiff flags bits.

(** Error values.  The first eight are the error constants of package
    [vfs]; [Wrapped] is [errors.Wrap], [New] is [errors.New], and [Other]
    stands for any error of a collaborator. *)
Inductive error : Type :=
  | EEXIST | ECLOSED | EBADF | EINVAL | EPERM | EROFS | ENOENT | ENOSYS
  | ErrNotExist
  | ErrorObjectNotFound
  | ErrorDirNotFound
  | ErrorCantSetModTime
  | ErrorCantSetModTimeWithoutDelete
  | Other (code : nat)
  | New (msg : string)
  | Wrapped (cause : error) (msg : string).

#[global] Instance error_eq_dec : EqDecision error.
Proof. solve_decision. Defined.

(** [errors.Cause] *)
Fixpoint Cause (e : error) : error :=
  match e with
  | Wrapped c _ => Cause c
  | _ => e
  end.

(** [os.IsNotExist] *)
Definition IsNotExist (e : option error) : bool :=
  match e with
  | Some ErrNotExist => true
  | _ => false
  end.

(** Modelled from the spec: the cache mode, one of Off, Minimal, Writes
    and Full, strictly ordered. *)
Inductive CacheMode : Type :=
  | CacheModeOff | CacheModeMinimal | CacheModeWrites | CacheModeFull.

#[global] Instance CacheMode_eq_dec : EqDecision CacheMode.
Proof. solve_decision. Defined.

Definition CacheMode_rank (m : CacheMode) : Z :=
  match m with
  | CacheModeOff => 0
  | CacheModeMinimal => 1
  | CacheModeWrites => 2
  | CacheModeFull => 3
  end.

(** [a >= b] on cache modes. *)
Definition CacheMode_ge (a b : CacheMode) : bool :=
  CacheMode_rank a >=? CacheMode_rank b.

(** A remote object ([fs.Object]): what the file node asks of it. *)
Record Object : Type := mkObject { Object_Size : Z; Object_Remote : string }.

#[global] Instance Object_eq_dec : EqDecision Object.
Proof. solve_decision. Defined.

(** A value of the [Handle] interface: the dynamic type and the
    pointer. *)
Inductive Handle : Type :=
  | RWHandle (p : nat)
  | WriteHandle (p : nat)
  | ReadHandle (p : nat).

#[global] Instance Handle_eq_dec : EqDecision Handle.
Proof. solve_decision. Defined.

(** The type assertion of [h] to a read/write handle succeeds. *)
Definition isRW (h : Handle) : bool :=
  match h with RWHandle _ => true | _ => false end.

(** A rename queued on the file ([pendingRenameFun]): the closure built
    by [File.rename], as its captured new path and the closure it
    chains. *)
Inductive PendingRename : Type :=
  | RenameCall (newPath : string)
  | RenameChain (newPath : string) (old : PendingRename).

(** [type File struct].  The fields [inode], [d] and [sys] play no part
    here.  Of the three mutexes only [muRW] is kept, as [muRW]: the
    critical sections of [File.mu] and of the handle's [mu] never nest
    on the same mutex, those of [muRW] do. *)
Record File : Type := mkFile {
  size : Z;
  dPath : string;
  o : option Object;
  leaf : string;
  rwOpenCount : Z;
  writers : list Handle;
  nwriters : Z;
  readWriters : Z;
  readWriterClosing : bool;
  modified : bool;
  pendingModTime : option Z;
  pendingRenameFun : option PendingRename;
  appendMode : bool;
  muRW : bool
}.

(** [type RWFileHandle struct].  [file] and [d] are the one file and its
    directory; the descriptor [fd] is non-nil exactly when [opened], the
    two being assigned together. *)
Record RWFileHandle : Type := mkRW {
  offset : Z;
  flags : Z;
  closed : bool;
  opened : bool;
  writeCalled : bool;
  changed : bool
}.

(** The state the operations run in: one file node, the heap of
    read/write handles, the cache's open counts, the options of the VFS
    and the state [X] of the collaborators (cache files, remote,
    directory). *)
Record World (X : Type) : Type := mkWorld {
  file : File;
  handles : gmap nat RWFileHandle;
  cache_opens : gmap string Z;
  Opt_ReadOnly : bool;
  Opt_CacheMode : CacheMode;
  ext : X
}.
Arguments mkWorld {X}.
Arguments file {X}.
Arguments handles {X}.
Arguments cache_opens {X}.
Arguments Opt_ReadOnly {X}.
Arguments Opt_CacheMode {X}.
Arguments ext {X}.

(** Why a goroutine panics. *)
Inductive panic : Type :=
  | NilObject
  | BadHandle (p : nat).

(** The outcome of an operation: it returns, it blocks forever on a
    mutex it already holds, or it panics. *)
Inductive Res (X A : Type) : Type :=
  | Done (a : A) (w : World X)
  | Blocked
  | Panic (why : panic).
Arguments Done {X A}.
Arguments Blocked {X A}.
Arguments Panic {X A}.

(** The collaborators outside the sources at hand, as transitions of
    their own state [X]. *)
Class External (X : Type) : Type := {
  path_Join : string -> string -> string;
  GOOS_windows : bool;
  time_Sleep : X -> X;
  cache_ToOSPath : string -> string;
  cache_Mkdir : string -> X -> option error * X;
  cache_Exists : string -> X -> bool;
  cache_Check : Object -> string -> X -> option error * X;
  cache_Fetch : Object -> string -> X -> option error * X;
  cache_Store : option Object -> string -> X -> (error + option Object) * X;
  cache_SetModTime : string -> Z -> X -> X;
  file_OpenFile : string -> Z -> X -> option error * X;
  ioutil_WriteFile : string -> X -> option error * X;
  os_Stat : string -> X -> option error * X;
  os_Truncate : string -> Z -> X -> option error * X;
  fd_Stat : nat -> X -> (error + Z) * X;
  fd_Close : nat -> X -> option error * X;
  fd_Write : nat -> list Byte.byte -> X -> (Z * option error) * X;
  fd_WriteAt : nat -> list Byte.byte -> Z -> X -> (Z * option error) * X;
  fd_Truncate : nat -> Z -> X -> option error * X;
  Object_SetModTime : Object -> Z -> X -> option error * X;
  operations_Move : string -> Object -> X -> (error + option Object) * X;
  dir_addObject : X -> X
}.

(** The write-only and read-only handle variants, whose sources are not
    at hand: their constructors and the two methods [File.Truncate]
    calls through the [Handle] interface. *)
Class Variants (X : Type) : Type := {
  newWriteFileHandle : string -> Z -> World X -> (error + nat) * World X;
  newReadFileHandle : World X -> (error + nat) * World X;
  other_Truncate : Handle -> Z -> World X -> option error * World X;
  other_Close : Handle -> World X -> option error * World X
}.

(** *** Field updates *)

Definition set_size (v : Z) (f : File) : File :=
  mkFile v (dPath f) (o f) (leaf f) (rwOpenCount f) (writers f) (nwriters f)
    (readWriters f) (readWriterClosing f) (modified f) (pendingModTime f)
    (pendingRenameFun f) (appendMode f) (muRW f).
Definition set_o (v : option Object) (f : File) : File :=
  mkFile (size f) (dPath f) v (leaf f) (rwOpenCount f) (writers f) (nwriters f)
    (readWriters f) (readWriterClosing f) (modified f) (pendingModTime f)
    (pendingRenameFun f) (appendMode f) (muRW f).
Definition set_rwOpenCount (v : Z) (f : File) : File :=
  mkFile (size f) (dPath f) (o f) (leaf f) v (writers f) (nwriters f)
    (readWriters f) (readWriterClosing f) (modified f) (pendingModTime f)
    (pendingRenameFun f) (appendMode f) (muRW f).
Definition set_writers (v : list Handle) (f : File) : File :=
  mkFile (size f) (dPath f) (o f) (leaf f) (rwOpenCount f) v (nwriters f)
    (readWriters f) (readWriterClosing f) (modified f) (pendingModTime f)
    (pendingRenameFun f) (appendMode f) (muRW f).
Definition set_nwriters (v : Z) (f : File) : File :=
  mkFile (size f) (dPath f) (o f) (leaf f) (rwOpenCount f) (writers f) v
    (readWriters f) (readWriterClosing f) (modified f) (pendingModTime f)
    (pendingRenameFun f) (appendMode f) (muRW f).
Definition set_readWriters (v : Z) (f : File) : File :=
  mkFile (size f) (dPath f) (o f) (leaf f) (rwOpenCount f) (writers f) (nwriters f)
    v (readWriterClosing f) (modified f) (pendingModTime f)
    (pendingRenameFun f) (appendMode f) (muRW f).
Definition set_readWriterClosing (v : bool) (f : File) : File :=
  mkFile (size f) (dPath f) (o f) (leaf f) (rwOpenCount f) (writers f) (nwriters f)
    (readWriters f) v (modified f) (pendingModTime f)
    (pendingRenameFun f) (appendMode f) (muRW f).
Definition set_modified (v : bool) (f : File) : File :=
  mkFile (size f) (dPath f) (o f) (leaf f) (rwOpenCount f) (writers f) (nwriters f)
    (readWriters f) (readWriterClosing f) v (pendingModTime f)
    (pendingRenameFun f) (appendMode f) (muRW f).
Definition set_pendingModTime (v : option Z) (f : File) : File :=
  mkFile (size f) (dPath f) (o f) (leaf f) (rwOpenCount f) (writers f) (nwriters f)
    (readWriters f) (readWriterClosing f) (modified f) v
    (pendingRenameFun f) (appendMode f) (muRW f).
Definition set_pendingRenameFun (v : option PendingRename) (f : File) : File :=
  mkFile (size f) (dPath f) (o f) (leaf f) (rwOpenCount f) (writers f) (nwriters f)
    (readWriters f) (readWriterClosing f) (modified f) (pendingModTime f)
    v (appendMode f) (muRW f).
Definition set_appendMode (v : bool) (f : File) : File :=
  mkFile (size f) (dPath f) (o f) (leaf f) (rwOpenCount f) (writers f) (nwriters f)
    (readWriters f) (readWriterClosing f) (modified f) (pendingModTime f)
    (pendingRenameFun f) v (muRW f).
Definition set_muRW (v : bool) (f : File) : File :=
  mkFile (size f) (dPath f) (o f) (leaf f) (rwOpenCount f) (writers f) (nwriters f)
    (readWriters f) (readWriterClosing f) (modified f) (pendingModTime f)
    (pendingRenameFun f) (appendMode f) v.

Definition set_offset (v : Z) (h : RWFileHandle) : RWFileHandle :=
  mkRW v (flags h) (closed h) (opened h) (writeCalled h) (changed h).
Definition set_closed (v : bool) (h : RWFileHandle) : RWFileHandle :=
  mkRW (offset h) (flags h) v (opened h) (writeCalled h) (changed h).
Definition set_opened (v : bool) (h : RWFileHandle) : RWFileHandle :=
  mkRW (offset h) (flags h) (closed h) v (writeCalled h) (changed h).
Definition set_writeCalled (v : bool) (h : RWFileHandle) : RWFileHandle :=
  mkRW (offset h) (flags h) (closed h) (opened h) v (changed h).
Definition set_changed (v : bool) (h : RWFileHandle) : RWFileHandle :=
  mkRW (offset h) (flags h) (closed h) (opened h) (writeCalled h) v.

Definition set_file {X} (v : File) (w : World X) : World X :=
  mkWorld v (handles w) (cache_opens w) (Opt_ReadOnly w) (Opt_CacheMode w) (ext w).
Definition set_handles {X} (v : gmap nat RWFileHandle) (w : World X) : World X :=
  mkWorld (file w) v (cache_opens w) (Opt_ReadOnly w) (Opt_CacheMode w) (ext w).
Definition set_cache_opens {X} (v : gmap string Z) (w : World X) : World X :=
  mkWorld (file w) (handles w) v (Opt_ReadOnly w) (Opt_CacheMode w) (ext w).
Definition set_ext {X} (v : X) (w : World X) : World X :=
  mkWorld (file w) (handles w) (cache_opens w) (Opt_ReadOnly w) (Opt_CacheMode w) v.

(** *** The monad of operations *)

Definition M (X A : Type) : Type := World X -> Res X A.

#[global] Instance M_ret {X} : MRet (M X) := fun A a w => Done a w.

#[global] Instance M_bind {X} : MBind (M X) := fun A B k m w =>
  match m w with
  | Done a w' => k a w'
  | Blocked => Blocked
  | Panic why => Panic why
  end.

Definition get_world {X} : M X (World X) := fun w => Done w w.
Definition get_file {X} : M X File := fun w => Done (file w) w.
Definition mod_file {X} (g : File -> File) : M X unit :=
  fun w => Done tt (set_file (g (file w)) w).

(** Reading and writing through a handle pointer. *)
Definition get_fh {X} (p : nat) : M X RWFileHandle := fun w =>
  match handles w !! p with
  | Some h => Done h w
  | None => Panic (BadHandle p)
  end.
Definition mod_fh {X} (p : nat) (g : RWFileHandle -> RWFileHandle) : M X unit := fun w =>
  match handles w !! p with
  | Some h => Done tt (set_handles (<[p := g h]> (handles w)) w)
  | None => Panic (BadHandle p)
  end.

(** [&RWFileHandle{...}]: the new handle lives at a fresh address. *)
Definition alloc_fh {X} (h : RWFileHandle) : M X nat := fun w =>
  let p := fresh (dom (handles w)) in
  Done p (set_handles (<[p := h]> (handles w)) w).

(** A call of a collaborator. *)
Definition call {X A} (op : X -> A * X) : M X A := fun w =>
  let '(a, x) := op (ext w) in Done a (set_ext x w).
Definition call_ {X} (op : X -> X) : M X unit := fun w =>
  Done tt (set_ext (op (ext w)) w).
Definition lift {X A} (op : World X -> A * World X) : M X A := fun w =>
  let '(a, w') := op w in Done a w'.

(** [panic(...)] and the nil dereference. *)
Definition throw {X A} (why : panic) : M X A := fun _ => Panic why.

(** [muRW.Lock()]: a [sync.Mutex] is not reentrant, locking it while it
    is held blocks. *)
Definition muRW_Lock {X} : M X unit := fun w =>
  if muRW (file w) then Blocked else Done tt (set_file (set_muRW true (file w)) w).

(** [muRW.Unlock()] *)
Definition muRW_Unlock {X} : M X unit := mod_file (set_muRW false).

Section Operations.
Context {X : Type} `{!External X} `{!Variants X}.

Implicit Types (p : nat) (h : Handle) (f : File).

(** *** The cache's open counts *)

Definition opens_of (m : gmap string Z) (name : string) : Z := default 0 (m !! name).

(** Modelled from the spec: [cache.Open(name)] of the cache facade,
    which is not among the sources, increments the open count of the
    path. *)
Definition cache_Open (name : string) : M X unit := fun w =>
  Done tt (set_cache_opens (<[name := opens_of (cache_opens w) name + 1]> (cache_opens w)) w).

(** Modelled from the spec: [cache.Close(name)] of the cache facade
    drops the open count of the path by one. *)
Definition cache_Close (name : string) : M X unit := fun w =>
  Done tt (set_cache_opens (<[name := opens_of (cache_opens w) name - 1]> (cache_opens w)) w).

(** Modelled from the spec: [cache.Opens(name)] of the cache facade is
    the open count of the path. *)
Definition cache_Opens (name : string) : M X Z := fun w =>
  Done (opens_of (cache_opens w) name) w.

(** *** The file node *)

(** [func (f *File) _path() string] and [func (f *File) Path() string] *)
Definition Path f : string := path_Join (dPath f) (leaf f).

(** [func (f *File) osPath() string] *)
Definition osPath f : string := cache_ToOSPath (Path f).

(** [func (f *File) _writingInProgress() bool] *)
Definition _writingInProgress f : bool :=
  bool_decide (o f = None) || negb (length (writers f) =? 0)%nat || readWriterClosing f.

(** The body of the closure [renameCall] that [File.rename] builds, from
    the read of [f.o] on. *)
Definition renameCall_body (newPath : string) : M X (option error) :=
  f ← get_file;
  match o f with
  | None => mret (Some (New "Cannot rename: file object is not available"))
  | Some ob =>
      if String.eqb (Object_Remote ob) newPath then mret None
      else
        r ← call (operations_Move newPath ob);
        match r with
        | inl err => mret (Some err)
        | inr None => mret (Some (New "rename failed: nil object returned"))
        | inr (Some newObject) =>
            mod_file (fun f => set_pendingRenameFun None (set_o (Some newObject) f));;
            mret None
        end
  end.

(** Running a queued rename: the chained closure first. *)
Fixpoint renameCall (fn : PendingRename) : M X (option error) :=
  match fn with
  | RenameCall newPath => renameCall_body newPath
  | RenameChain newPath old =>
      err ← renameCall old;
      match err with
      | Some e => mret (Some e)
      | None => renameCall_body newPath
      end
  end.

(** [func (f *File) applyPendingRename()] *)
Definition applyPendingRename : M X unit :=
  f ← get_file;
  let fn := pendingRenameFun f in
  let writing := _writingInProgress f in
  match fn with
  | None => mret tt
  | Some fn => if writing then mret tt else renameCall fn;; mret tt
  end.

(** [func (f *File) addWriter(h Handle)] *)
Definition addWriter h : M X unit :=
  mod_file (fun f => set_writers (writers f ++ [h]) f);;
  mod_file (fun f => set_nwriters (Int32.add (nwriters f) 1) f);;
  (if isRW h then mod_file (fun f => set_readWriters (Int64.add (readWriters f) 1) f)
   else mret tt).

(** [func (f *File) delWriter(h Handle, modifiedCacheFile bool)
    (lastWriterAndModified bool)] *)
Definition delWriter h (modifiedCacheFile : bool) : M X bool :=
  f ← get_file;
  (match list_find (fun x => x = h) (writers f) with
   | Some (found, _) =>
       mod_file (fun f => set_writers (take found (writers f) ++ drop (found + 1) (writers f)) f);;
       mod_file (fun f => set_nwriters (Int32.add (nwriters f) (-1)) f)
   | None => mret tt
   end);;
  (if isRW h then mod_file (fun f => set_readWriters (Int64.sub (readWriters f) 1) f)
   else mret tt);;
  mod_file (set_readWriterClosing true);;
  (if modifiedCacheFile then mod_file (set_modified true) else mret tt);;
  f ← get_file;
  let lastWriterAndModified := (length (writers f) =? 0)%nat && modified f in
  (if lastWriterAndModified then mod_file (set_modified false) else mret tt);;
  applyPendingRename;;
  mret lastWriterAndModified.

(** [func (f *File) addRWOpen()] *)
Definition addRWOpen : M X unit :=
  mod_file (fun f => set_rwOpenCount (Int64.add (rwOpenCount f) 1) f).

(** [func (f *File) delRWOpen()] *)
Definition delRWOpen : M X unit :=
  mod_file (fun f => set_rwOpenCount (Int64.sub (rwOpenCount f) 1) f).

(** [func (f *File) rwOpens() int] *)
Definition rwOpens : M X Z := f ← get_file; mret (rwOpenCount f).

(** [func (f *File) finishWriterClose()] *)
Definition finishWriterClose : M X unit :=
  mod_file (set_readWriterClosing false);;
  applyPendingRename.

(** [func (f *File) setSize(n int64)] *)
Definition setSize (n : Z) : M X unit := mod_file (set_size n).

(** [func (f *File) _applyPendingModTime() error] *)
Definition _applyPendingModTime : M X (option error) :=
  f ← get_file;
  match pendingModTime f with
  | None => mret None
  | Some t =>
      err ←
        match o f with
        | None => mret (Some (New "Cannot apply ModTime, file object is not available"))
        | Some ob =>
            call_ (cache_SetModTime (Path f) t);;
            err ← call (Object_SetModTime ob t);
            match err with
            | None | Some ErrorCantSetModTime
            | Some ErrorCantSetModTimeWithoutDelete => mret None
            | Some e => mret (Some e)
            end
        end;
      mod_file (set_pendingModTime None);;
      mret err
  end.

(** [func (f *File) setObject(o fs.Object)] *)
Definition setObject (ob : option Object) : M X unit :=
  mod_file (set_o ob);;
  _applyPendingModTime;;
  call_ dir_addObject.

(** [func (f *File) getObject() fs.Object] *)
Definition getObject : M X (option Object) := f ← get_file; mret (o f).

(** [func (f *File) exists() bool] *)
Definition exists_ : M X bool := f ← get_file; mret (bool_decide (o f ≠ None)).

(** *** The read/write handle *)

(** [func (fh *RWFileHandle) openPending(truncate bool) (err error)] *)
Definition openPending p (truncate : bool) : M X (option error) :=
  fh ← get_fh p;
  if opened fh then mret None
  else
    muRW_Lock;;
    err ←
      (ob ← getObject;
       f ← get_file;
       let cacheFileOpenFlags := flags fh in
       (* [r] is the error to return, or else whether [fd] is still nil
          and the flags to open the cache file with *)
       r ←
         (if negb (has (flags fh) os.O_TRUNC) && negb truncate then
            n ← rwOpens;
            err ←
              match ob with
              | Some obj =>
                  if n =? 0 then call (cache_Check obj (Path f)) else mret None
              | None => mret None
              end;
            match err with
            | Some e => mret (inl (Wrapped e "open RW handle failed to check cache file"))
            | None =>
                err ← call (file_OpenFile (osPath f) (clear cacheFileOpenFlags os.O_CREATE));
                if IsNotExist err then
                  r ←
                    match ob with
                    | Some obj =>
                        err' ← call (cache_Fetch obj (Path f));
                        match err' with
                        | Some e =>
                            let cause := Cause e in
                            if bool_decide (cause ≠ ErrorObjectNotFound)
                               && bool_decide (cause ≠ ErrorDirNotFound)
                            then mret (inl (Wrapped e "open RW handle failed to cache file"))
                            else mret (inr (Some e))
                        | None => mret (inr None)
                        end
                    | None => mret (inr err)
                    end;
                  match r with
                  | inl e => mret (inl e)
                  | inr (Some e) =>
                      if has (flags fh) os.O_CREATE then
                        setSize 0;;
                        mod_fh p (set_changed true);;
                        mret (inr (true, cacheFileOpenFlags))
                      else mret (inl (Wrapped e "open RW handle failed to cache file"))
                  | inr None => mret (inr (true, cacheFileOpenFlags))
                  end
                else
                  match err with
                  | Some e => mret (inl (Wrapped e "cache open file failed"))
                  | None => mret (inr (false, cacheFileOpenFlags))
                  end
            end
          else
            setSize 0;;
            mod_fh p (set_changed true);;
            ex ← exists_;
            err ←
              (if negb (has (flags fh) os.O_CREATE) && ex
               then call (ioutil_WriteFile (osPath f)) else mret None);
            match err with
            | Some e => mret (inl (Wrapped e "cache open failed to create zero length file"))
            | None =>
                if GOOS_windows && has (flags fh) os.O_APPEND then
                  let cacheFileOpenFlags := clear cacheFileOpenFlags os.O_TRUNC in
                  err ← call (os_Stat (osPath f));
                  match err with
                  | None =>
                      err ← call (os_Truncate (osPath f) 0);
                      match err with
                      | Some e => mret (inl (Wrapped e "cache open failed to truncate"))
                      | None => mret (inr (true, cacheFileOpenFlags))
                      end
                  | Some _ => mret (inr (true, cacheFileOpenFlags))
                  end
                else mret (inr (true, cacheFileOpenFlags))
            end);
       match r with
       | inl e => mret (Some e)
       | inr (fd_nil, cacheFileOpenFlags) =>
           err ← (if fd_nil : bool then call (file_OpenFile (osPath f) cacheFileOpenFlags)
                  else mret None);
           match err with
           | Some e => mret (Some (Wrapped e "cache open file failed"))
           | None =>
               mod_fh p (set_opened true);;
               addRWOpen;;
               call_ dir_addObject;;
               mret None
           end
       end);
    muRW_Unlock;;
    mret err.

(** [func newRWFileHandle(d *Dir, f *File, flags int) (fh *RWFileHandle,
    err error)] *)
Definition newRWFileHandle (flags : Z) : M X (error + nat) :=
  ex ← exists_;
  if (Z.land flags (Z.lor os.O_CREATE os.O_EXCL) =? Z.lor os.O_CREATE os.O_EXCL) && ex
  then mret (inl EEXIST)
  else
    p ← alloc_fh (mkRW 0 flags false false false false);
    f ← get_file;
    cache_Open (Path f);;
    err ← call (cache_Mkdir (Path f));
    match err with
    | Some e =>
        cache_Close (Path f);;
        mret (inl (Wrapped e "open RW handle failed to make cache directory"))
    | None =>
        let rdwrMode := Z.land flags accessModeMask in
        (if negb (rdwrMode =? os.O_RDONLY) then addWriter (RWHandle p) else mret tt);;
        ex ← exists_;
        if has flags os.O_TRUNC || (has flags os.O_CREATE && negb ex) then
          err ← openPending p false;
          match err with
          | Some e => delWriter (RWHandle p) false;; mret (inl e)
          | None => mret (inr p)
          end
        else mret (inr p)
    end.

(** [func (fh *RWFileHandle) modified() bool] *)
Definition RWFileHandle_modified (fh : RWFileHandle) : bool :=
  if negb (writeCalled fh) && negb (changed fh) then false else true.

(** [func (fh *RWFileHandle) flushWrites(closeFile bool) error] *)
Definition flushWrites p (closeFile : bool) : M X (option error) :=
  fh ← get_fh p;
  if closed fh && negb closeFile then mret None
  else
    let rdwrMode := Z.land (flags fh) accessModeMask in
    let writer := negb (rdwrMode =? os.O_RDONLY) in
    if negb (opened fh) && (rdwrMode =? os.O_RDONLY) then mret None
    else
      isCopied ← (if writer then delWriter (RWHandle p) (RWFileHandle_modified fh)
                  else mret false);
      err ←
        (err ← (if has (flags fh) (Z.lor os.O_CREATE os.O_TRUNC)
                then openPending p false else mret None);
         match err with
         | Some e => mret (Some e)
         | None =>
             fh ← get_fh p;
             (if writer && opened fh then
                fi ← call (fd_Stat p);
                match fi with
                | inl _ => mret tt
                | inr n => setSize n
                end
              else mret tt);;
             err ← (if opened fh && closeFile then call (fd_Close p) else mret None);
             match err with
             | Some e => mret (Some (Wrapped e "failed to close cache file"))
             | None =>
                 if isCopied : bool then
                   ob ← getObject;
                   f ← get_file;
                   r ← call (cache_Store ob (Path f));
                   match r with
                   | inl e => mret (Some e)
                   | inr ob' => setObject ob';; mret None
                   end
                 else mret None
             end
         end);
      (* the deferred call *)
      (if writer then finishWriterClose else mret tt);;
      mret err.

(** [func (fh *RWFileHandle) close() (err error)] *)
Definition close p : M X (option error) :=
  muRW_Lock;;
  fh ← get_fh p;
  err ←
    (if closed fh then mret (Some ECLOSED)
     else
       mod_fh p (set_closed true);;
       err ← flushWrites p true;
       (* the deferred function *)
       fh ← get_fh p;
       (if opened fh then delRWOpen else mret tt);;
       f ← get_file;
       cache_Close (Path f);;
       mret err);
  muRW_Unlock;;
  mret err.

(** [func (fh *RWFileHandle) Close() error] *)
Definition Close p : M X (option error) := close p.

(** [func (fh *RWFileHandle) Flush() error] *)
Definition Flush p : M X (option error) :=
  fh ← get_fh p;
  if negb (opened fh) then mret None
  else if closed fh then mret None
  else if negb (opened fh) then mret None
  else if negb (writeCalled fh) then mret None
  else
    muRW_Lock;;
    err ← flushWrites p false;
    muRW_Unlock;;
    mret err.

(** [func (fh *RWFileHandle) Release() error] *)
Definition Release p : M X (option error) :=
  fh ← get_fh p;
  if closed fh then mret None
  else
    err ← close p;
    mret err.

(** [func (fh *RWFileHandle) _writeAt(b []byte, off int64) (n int, err
    error)] *)
Definition _writeAt p (b : list Byte.byte) (off : Z) : M X (Z * option error) :=
  fh ← get_fh p;
  if closed fh then mret (0, Some ECLOSED)
  else if Z.land (flags fh) accessModeMask =? os.O_RDONLY then mret (0, Some EBADF)
  else
    err ← openPending p false;
    match err with
    | Some e => mret (0, Some e)
    | None =>
        mod_fh p (set_writeCalled true);;
        '(n, err) ← (if has (flags fh) os.O_APPEND then call (fd_Write p b)
                     else call (fd_WriteAt p b off));
        match err with
        | Some e => mret (n, Some e)
        | None =>
            fi ← call (fd_Stat p);
            match fi with
            | inl e => mret (n, Some (Wrapped e "failed to stat cache file"))
            | inr sz => setSize sz;; mret (n, None)
            end
        end
    end.

(** [func (fh *RWFileHandle) WriteAt(b []byte, off int64) (n int, err
    error)] *)
Definition WriteAt p (b : list Byte.byte) (off : Z) : M X (Z * option error) :=
  _writeAt p b off.

(** [func (fh *RWFileHandle) Write(b []byte) (n int, err error)] *)
Definition Write p (b : list Byte.byte) : M X (Z * option error) :=
  fh ← get_fh p;
  '(n, err) ← _writeAt p b (offset fh);
  mod_fh p (fun fh => set_offset (Int64.add (offset fh) n) fh);;
  mret (n, err).

(** [func (fh *RWFileHandle) Truncate(size int64) (err error)] *)
Definition RWFileHandle_Truncate p (size : Z) : M X (option error) :=
  fh ← get_fh p;
  if closed fh then mret (Some ECLOSED)
  else
    err ← openPending p (size =? 0);
    match err with
    | Some e => mret (Some e)
    | None =>
        mod_fh p (set_changed true);;
        setSize size;;
        call (fd_Truncate p size)
    end.

(** *** Opening a file *)

(** The [for i := 0; i < 50; i++] loop of [waitForValidObject]; [n] is
    the number of rounds left. *)
Fixpoint waitForValidObject_loop (n : nat) : M X (error + Object) :=
  match n with
  | O => mret (inl ENOENT)
  | S n' =>
      f ← get_file;
      let ob := o f in
      let nwriters := length (writers f) in
      let wclosing := readWriterClosing f in
      match ob with
      | Some obj => mret (inr obj)
      | None =>
          if (nwriters =? 0)%nat && negb wclosing
          then mret (inl (New "can't open file - writer failed"))
          else call_ time_Sleep;; waitForValidObject_loop n'
      end
  end.

(** [func (f *File) waitForValidObject() (o fs.Object, err error)] *)
Definition waitForValidObject : M X (error + Object) := waitForValidObject_loop 50.

(** [func (f *File) openRead() (fh *ReadFileHandle, err error)] *)
Definition openRead : M X (error + Handle) :=
  r ← waitForValidObject;
  match r with
  | inl err => mret (inl err)
  | inr _ =>
      r ← lift newReadFileHandle;
      match r with
      | inl err => mret (inl err)
      | inr q => mret (inr (ReadHandle q))
      end
  end.

(** [func (f *File) openWrite(flags int) (fh *WriteFileHandle, err
    error)] *)
Definition openWrite (flags : Z) : M X (error + Handle) :=
  w ← get_world;
  if Opt_ReadOnly w then mret (inl EROFS)
  else
    f ← get_file;
    r ← lift (newWriteFileHandle (Path f) flags);
    match r with
    | inl err => mret (inl err)
    | inr q => mret (inr (WriteHandle q))
    end.

(** [func (f *File) openRW(flags int) (fh *RWFileHandle, err error)] *)
Definition openRW (flags : Z) : M X (error + Handle) :=
  w ← get_world;
  if negb (Z.land flags accessModeMask =? os.O_RDONLY) && Opt_ReadOnly w
  then mret (inl EROFS)
  else
    r ← newRWFileHandle flags;
    match r with
    | inl err => mret (inl err)
    | inr p => mret (inr (RWHandle p))
    end.

(** [func (f *File) Open(flags int) (fd Handle, err error)] *)
Definition Open (flags : Z) : M X (error + Handle) :=
  let rdwrMode := Z.land flags accessModeMask in
  if (rdwrMode =? os.O_RDONLY) && has flags os.O_TRUNC then mret (inl EINVAL)
  else
    match
      (if rdwrMode =? os.O_RDONLY then Some (true, false)
       else if rdwrMode =? os.O_WRONLY then Some (false, true)
       else if rdwrMode =? os.O_RDWR then Some (true, true)
       else None)
    with
    | None => mret (inl EPERM)
    | Some (read, write) =>
        read ← (if has flags os.O_APPEND
                then mod_file (set_appendMode true);; mret true
                else mret read);
        let write := if has flags os.O_TRUNC then true else write in
        w ← get_world;
        let CacheMode := Opt_CacheMode w in
        f ← get_file;
        opens ← cache_Opens (Path f);
        r ←
          (if CacheMode_ge CacheMode CacheModeMinimal
              && ((opens >? 0) || cache_Exists (Path f) (ext w))
           then openRW flags
           else if read && write then
             if CacheMode_ge CacheMode CacheModeMinimal then openRW flags
             else openWrite flags
           else if write then
             if CacheMode_ge CacheMode CacheModeWrites then openRW flags
             else openWrite flags
           else if read then
             if CacheMode_ge CacheMode CacheModeFull then openRW flags
             else openRead
           else mret (inl EPERM));
        match r with
        | inl err => mret (inl err)
        | inr fd =>
            (if has flags os.O_CREATE then call_ dir_addObject else mret tt);;
            mret (inr fd)
        end
    end.

(** *** Truncating a file *)

(** [h.Truncate(size)] through the [Handle] interface. *)
Definition Handle_Truncate h (size : Z) : M X (option error) :=
  match h with
  | RWHandle p => RWFileHandle_Truncate p size
  | _ => lift (other_Truncate h size)
  end.

(** [h.Close()] through the [Handle] interface. *)
Definition Handle_Close h : M X (option error) :=
  match h with
  | RWHandle p => Close p
  | _ => lift (other_Close h)
  end.

(** The [for _, h := range writers] loop of [File.Truncate]. *)
Fixpoint Truncate_writers (ws : list Handle) (size : Z) (err : option error)
  : M X (option error) :=
  match ws with
  | [] => mret err
  | h :: ws' =>
      truncateErr ← Handle_Truncate h size;
      Truncate_writers ws' size
        (match truncateErr with Some e => Some e | None => err end)
  end.

(** [fs.CheckClose(c, &err)] *)
Definition CheckClose h (err : option error) : M X (option error) :=
  cerr ← Handle_Close h;
  mret (match err with None => cerr | Some e => Some e end).

(** [func (f *File) Truncate(size int64) (err error)]; [o.Size()] on a
    nil [o] is the nil dereference. *)
Definition File_Truncate (size : Z) : M X (option error) :=
  f ← get_file;
  let writers := writers f in
  let ob := o f in
  if negb (length writers =? 0)%nat then Truncate_writers writers size None
  else
    osize ← match ob with
            | Some obj => mret (Object_Size obj)
            | None => throw NilObject
            end;
    if osize =? size then mret None
    else
      let flags := os.O_WRONLY in
      let flags := if size =? 0 then Z.lor flags os.O_TRUNC else flags in
      r ← Open flags;
      match r with
      | inl err => mret (Some err)
      | inr fh =>
          err ← (if negb (size =? 0) then Handle_Truncate fh size else mret None);
          CheckClose fh err
      end.

(** *** The selector of the spec *)

(** The handle variants the selector chooses among. *)
Inductive Variant : Type := VariantRW | VariantWriteOnly | VariantReadOnly.

(** The read and write intents: the access mode, with [O_APPEND] forcing
    read and [O_TRUNC] forcing write. *)
Definition read_intent (flags : Z) : bool :=
  let rdwrMode := Z.land flags accessModeMask in
  (rdwrMode =? os.O_RDONLY) || (rdwrMode =? os.O_RDWR) || has flags os.O_APPEND.
Definition write_intent (flags : Z) : bool :=
  let rdwrMode := Z.land flags accessModeMask in
  (rdwrMode =? os.O_WRONLY) || (rdwrMode =? os.O_RDWR) || has flags os.O_TRUNC.

(** The four rules of the spec's table, top-down, first match wins;
    [in_cache] says the cache has the path open or resident. *)
Definition selector (mode : CacheMode) (in_cache read write : bool) : option Variant :=
  if CacheMode_ge mode CacheModeMinimal && in_cache then Some VariantRW
  else if read && write then
    Some (if CacheMode_ge mode CacheModeMinimal then VariantRW else VariantWriteOnly)
  else if write then
    Some (if CacheMode_ge mode CacheModeWrites then VariantRW else VariantWriteOnly)
  else if read then
    Some (if bool_decide (mode = CacheModeFull) then VariantRW else VariantReadOnly)
  else None.

(** Whether the cache has the file's path open or resident. *)
Definition in_cache (w : World X) : bool :=
  (opens_of (cache_opens w) (Path (file w)) >? 0)
  || cache_Exists (Path (file w)) (ext w).

(** Opening the file with the opener of a given variant: what [Open]
    does around the call of the opener. *)
Definition Open_with (v : Variant) (flags : Z) : M X (error + Handle) :=
  (if has flags os.O_APPEND then mod_file (set_appendMode true) else mret tt);;
  r ← match v with
      | VariantRW => openRW flags
      | VariantWriteOnly => openWrite flags
      | VariantReadOnly => openRead
      end;
  match r with
  | inl err => mret (inl err)
  | inr fd =>
      (if has flags os.O_CREATE then call_ dir_addObject else mret tt);;
      mret (inr fd)
  end.

(** [Open] routes to variant [v] in the world [w]. *)
Definition routes_to (flags : Z) (w : World X) (v : Variant) : Prop :=
  Open flags w = Open_with v flags w.

(** A valid access mode: read-only, write-only or read-write. *)
Definition valid_access_mode (flags : Z) : Prop :=
  let rdwrMode := Z.land flags accessModeMask in
  rdwrMode = os.O_RDONLY \/ rdwrMode = os.O_WRONLY \/ rdwrMode = os.O_RDWR.

End Operations.

End VFS.

(** ** Simulated collaborators

    A small deterministic cache and remote used to run the operations on
    concrete inputs: one cache file, present or not, with its length;
    switches that make [fd.Close] or the cache's [Store] fail; a count
    of the uploads. *)

Module Sim.

Import VFS.

Record t : Type := mk {
  resident : bool;
  length : Z;
  fd_Close_fails : bool;
  Store_fails : bool;
  stores : nat
}.

Definition set_resident (v : bool) (x : t) : t :=
  mk v (length x) (fd_Close_fails x) (Store_fails x) (stores x).
Definition set_length (v : Z) (x : t) : t :=
  mk (resident x) v (fd_Close_fails x) (Store_fails x) (stores x).
Definition set_stores (v : nat) (x : t) : t :=
  mk (resident x) (length x) (fd_Close_fails x) (Store_fails x) v.

Definition OpenFile (flags : Z) (x : t) : option error * t :=
  if resident x then
    (None, if has flags os.O_TRUNC then set_length 0 x else x)
  else if has flags os.O_CREATE then (None, set_length 0 (set_resident true x))
  else (Some ErrNotExist, x).

#[global] Instance external : External t := {|
  path_Join d l := if String.eqb d "" then l else String.append d (String.append "/" l);
  GOOS_windows := false;
  time_Sleep x := x;
  cache_ToOSPath s := s;
  cache_Mkdir _ x := (None, x);
  cache_Exists _ x := resident x;
  cache_Check _ _ x := (None, x);
  cache_Fetch ob _ x := (None, set_length (Object_Size ob) (set_resident true x));
  cache_Store _ name x :=
    if Store_fails x then (inl (Other 7), x)
    else (inr (Some (mkObject (length x) name)), set_stores (S (stores x)) x);
  cache_SetModTime _ _ x := x;
  file_OpenFile _ flags x := OpenFile flags x;
  ioutil_WriteFile _ x := (None, set_length 0 (set_resident true x));
  os_Stat _ x := (if resident x then None else Some ErrNotExist, x);
  os_Truncate _ n x := (None, set_length n x);
  fd_Stat _ x := (inr (length x), x);
  fd_Close _ x := (if fd_Close_fails x then Some (Other 5) else None, x);
  fd_Write _ b x :=
    ((Z.of_nat (List.length b), None), set_length (length x + Z.of_nat (List.length b)) x);
  fd_WriteAt _ b off x :=
    ((Z.of_nat (List.length b), None),
     set_length (Z.max (length x) (off + Z.of_nat (List.length b))) x);
  fd_Truncate _ n x := (None, set_length n x);
  Object_SetModTime _ _ x := (None, x);
  operations_Move newPath ob x := (inr (Some (mkObject (Object_Size ob) newPath)), x);
  dir_addObject x := x
|}.

#[global] Instance variants : Variants t := {|
  newWriteFileHandle _ _ w := (inr 0%nat, w);
  newReadFileHandle w := (inr 0%nat, w);
  other_Truncate _ _ w := (None, w);
  other_Close _ w := (None, w)
|}.

(** A file [dir/name] with the given remote object and no handle open,
    in a VFS with the given cache mode. *)
Definition fresh_file (ob : option Object) : File :=
  mkFile (match ob with Some obj => Object_Size obj | None => 0 end)
    "dir" ob "name" 0 [] 0 0 false false None None false false.

Definition world (ob : option Object) (mode : CacheMode) (x : t) : World t :=
  mkWorld (fresh_file ob) ∅ ∅ false mode x.

(** A quiet collaborator state: nothing in the cache, nothing fails. *)
Definition quiet : t := mk false 0 false false 0.

(** The value an operation returns and the world it leaves. *)
Definition result {A} (r : Res t A) : option A :=
  match r with Done a _ => Some a | _ => None end.
Definition after {A} (r : Res t A) (w : World t) : World t :=
  match r with Done _ w' => w' | _ => w end.

End Sim.

(** ** Vocabulary of the range-set properties *)

Module RangeSet.

Import Range.

(** A range of the data model: a non-negative position and size whose
    end is an [int64]. *)
Definition valid (r : Range.t) : Prop :=
  0 <= Pos r /\ 0 <= Size r /\ Pos r + Size r <= Int64.max_int.

(** The invariant of a range set: every member is non-empty and every
    member ends strictly before the next one starts. *)
Definition invariant (rs : Ranges.t) : Prop :=
  (forall i a, rs !! i = Some a -> 0 < Size a) /\
  (forall i a b, rs !! i = Some a -> rs !! S i = Some b -> End a < Pos b).

(** The invariant on valid members, by recursion: the members are
    valid, non-empty, start at [lo] or later and leave a gap of at least
    one byte between neighbours. *)
Fixpoint ok (lo : Z) (rs : Ranges.t) : Prop :=
  match rs with
  | [] => True
  | r :: rs' =>
      lo <= Pos r /\ 0 < Size r /\ Pos r + Size r <= Int64.max_int /\
      ok (Pos r + Size r + 1) rs'
  end.

(** The bytes of a range and the bytes a list of ranges covers. *)
Definition bytes (r : Range.t) : gset Z := list_to_set (seqZ (Pos r) (Size r)).
Definition covered (rs : list Range.t) : gset Z := ⋃ (bytes <$> rs).

(** A sequence of [Insert] operations from the empty range set. *)
Definition InsertAll (l : list Range.t) : option Ranges.t :=
  foldl (fun acc r => acc ≫= Ranges.Insert r) (Some []) l.

(** What the loop of [coalesce] leaves from the merged element on: [acc]
    swallows the following members as long as [merge] succeeds. *)
Fixpoint absorb (acc : Range.t) (rest : list Range.t) : list Range.t :=
  match rest with
  | [] => [acc]
  | x :: rest' =>
      let '(merged, x') := Ranges.merge acc x in
      if merged then absorb x' rest' else acc :: rest
  end.

(** The slice the loop of [coalesce] leaves, from the merged element on,
    with the number of merges: the stale copies are still in place. *)
Fixpoint loop_trace (acc : Range.t) (rest : list Range.t) : list Range.t * nat :=
  match rest with
  | [] => ([acc], 0%nat)
  | x :: rest' =>
      let '(merged, x') := Ranges.merge acc x in
      if merged then
        let '(l, k) := loop_trace x' rest' in (acc :: l, S k)
      else (acc :: rest, 0%nat)
  end.

(** [coalesce] on a slice split around the element at [i]. *)
Definition coalesced (l1 : list Range.t) (x : Range.t) (l2 : list Range.t) : list Range.t :=
  match last l1 with
  | Some a =>
      let '(merged, x') := Ranges.merge a x in
      if merged then take (length l1 - 1) l1 ++ absorb x' l2
      else l1 ++ absorb x l2
  | None => l1 ++ absorb x l2
  end.

(** [Insert] on a slice split where [search] lands: [r] merges into the
    member it lands on, or is put in front of it, and [coalesce] runs. *)
Definition placed (r : Range.t) (l1 l2 : list Range.t) : list Range.t :=
  match l2 with
  | d :: l2' =>
      let '(merged, d') := Ranges.merge r d in
      if merged then coalesced l1 d' l2' else coalesced l1 r l2
  | [] => coalesced l1 r []
  end.

(** The least start the invariant allows after the members of [l]. *)
Definition upper (lo : Z) (l : list Range.t) : Z :=
  foldl (fun _ r => Pos r + Size r + 1) lo l.

(** A valid range that is not empty. *)
Definition solid (r : Range.t) : Prop :=
  0 <= Pos r /\ 0 < Size r /\ Pos r + Size r <= Int64.max_int.

(** What [merge a b] leaves in [b] when it succeeds: the range from the
    start of [a] to the later of the two ends. *)
Definition hull (a b : Range.t) : Range.t :=
  mk (Pos a) (Z.max (Pos a + Size a) (Pos b + Size b) - Pos a).

(** The body of [Find] once [search] has landed between the member
    [prev] and the member [found]. *)
Definition find_at (r : Range.t) (prev found : option Range.t) : Range.t * Range.t * bool :=
  let hit :=
    match prev with
    | Some p =>
        let i := Range.Intersection p r in
        if negb (IsEmpty i) then Some i else None
    | None => None
    end in
  match hit with
  | Some i => (i, mk (End i) (Int64.sub (Size r) (Size i)), true)
  | None =>
      match found with
      | None => (r, zero, false)
      | Some f =>
          let i := Range.Intersection f r in
          if IsEmpty i then (r, zero, false)
          else if Pos r <? Pos i then
            let curr := mk (Pos r) (Int64.sub (Pos i) (Pos r)) in
            (curr, mk (End curr) (Int64.sub (Size r) (Size curr)), false)
          else (i, mk (End i) (Int64.sub (Size r) (Size i)), true)
      end
  end.

(** The part of [r] inside a member [m] that contains [Pos r], with the
    rest of [r]. *)
Definition inside (m r : Range.t) : Range.t * Range.t * bool :=
  let e := Z.min (Pos m + Size m) (Pos r + Size r) in
  (mk (Pos r) (e - Pos r), mk e (Pos r + Size r - e), true).

(** The gap from [Pos r] to the start of [d], with the rest of [r]. *)
Definition gap_to (d r : Range.t) : Range.t * Range.t * bool :=
  (mk (Pos r) (Pos d - Pos r), mk (Pos d) (Pos r + Size r - Pos d), false).

(** The result of [Find] when no member before the landing place
    reaches [r]. *)
Definition find_right (r : Range.t) (found : option Range.t) : Range.t * Range.t * bool :=
  match found with
  | Some d =>
      if Pos d =? Pos r then inside d r
      else if Pos d <? Pos r + Size r then gap_to d r
      else (r, zero, false)
  | None => (r, zero, false)
  end.

(** The result of [Find] without the machine arithmetic. *)
Definition find_spec (r : Range.t) (prev found : option Range.t) : Range.t * Range.t * bool :=
  match prev with
  | Some a => if Pos r <? Pos a + Size a then inside a r else find_right r found
  | None => find_right r found
  end.

End RangeSet.

(** ** Vocabulary of the VFS properties *)

Module VFSSpec.

Import VFS.

Section Vocabulary.
Context {X : Type}.

(** An invariant of the world that an operation keeps whenever it
    returns, and a bound on how it may panic. *)
Definition keeps (Inv : World X -> Prop) (N : panic -> Prop) {A} (m : M X A) : Prop :=
  forall w, Inv w ->
    match m w with
    | Done _ w' => Inv w'
    | Blocked => True
    | Panic why => N why
    end.

(** The bookkeeping of a world: what the writeback step leaves alone
    once the handle is off the writers list. *)
Definition file_books (f : File) :=
  (dPath f, leaf f, muRW f, rwOpenCount f,
   readWriters f, writers f, nwriters f, appendMode f).
Definition books (w : World X) :=
  (handles w, cache_opens w, Opt_ReadOnly w, Opt_CacheMode w, file_books (file w)).

(** An operation that returns and leaves the bookkeeping alone, in
    every world that satisfies [P]. *)
Definition steady (P : World X -> Prop) {A} (m : M X A) : Prop :=
  forall w, P w -> exists a w', m w = Done a w' /\ books w' = books w.

(** The handle at [p] is [fh]. *)
Definition holds_fh (p : nat) (fh : RWFileHandle) (w : World X) : Prop :=
  handles w !! p = Some fh.

(** The handle at [p] has been closed. *)
Definition is_closed (p : nat) (w : World X) : Prop :=
  exists h, handles w !! p = Some h /\ closed h = true.

End Vocabulary.

(** A panic other than the nil dereference of [File.Truncate]. *)
Definition not_nil (why : panic) : Prop := why <> NilObject.

(** [O_CREATE|O_TRUNC], the flags for which the writeback step runs a
    pending open. *)
Definition CT : Z := Z.lor os.O_CREATE os.O_TRUNC.

(** A handle for which the writeback step has no open pending: it is
    opened already, or it neither creates nor truncates, or it is
    read-only. *)
Definition settled (fh : RWFileHandle) : Prop :=
  opened fh = true \/ has (flags fh) CT = false
  \/ Z.land (flags fh) accessModeMask = os.O_RDONLY.

(** [ws] without the first occurrence of [h]: what [delWriter] leaves. *)
Definition remove_first (h : Handle) (ws : list Handle) : list Handle :=
  match list_find (fun x => x = h) ws with
  | Some (found, _) => take found ws ++ drop (found + 1) ws
  | None => ws
  end.

(** The number of read/write handles among the writers. *)
Definition count_RW (ws : list Handle) : Z := Z.of_nat (length (List.filter isRW ws)).

(** An object already on the remote, and the flags of a create for
    writing. *)
Definition existing : Object := mkObject 100 "dir/name".
Definition create_wronly : Z := Z.lor os.O_WRONLY os.O_CREATE.

(** The world after a new file was opened for writing and three bytes
    were written to it. *)
Definition written : World Sim.t :=
  mkWorld
    (mkFile 3 "dir" None "name" 1 [RWHandle 0] 1 1 false false None None false false)
    {[ 0%nat := mkRW 3 create_wronly false true true true ]}
    {[ "dir/name"%string := 1 ]}
    false CacheModeWrites (Sim.mk true 3 false false 0).

End VFSSpec.

(** * Properties *)

Module Int64Facts.

Lemma wrap_small z : Int64.min_int <= z <= Int64.max_int -> Int64.wrap z = z.
Proof.
  unfold Int64.min_int, Int64.max_int, Int64.wrap. intros H.
  rewrite Z.mod_small; lia.
Qed.

Lemma add_small a b :
  Int64.min_int <= a + b <= Int64.max_int -> Int64.add a b = a + b.
Proof. apply wrap_small. Qed.

Lemma sub_small a b :
  Int64.min_int <= a - b <= Int64.max_int -> Int64.sub a b = a - b.
Proof. apply wrap_small. Qed.

Lemma bounds : Int64.min_int = -9223372036854775808 /\ Int64.max_int = 9223372036854775807.
Proof. split; reflexivity. Qed.

End Int64Facts.

Module SliceFacts.

Import Slice.

Section Search.
Context (f : nat -> option bool) (n k : nat).
Hypothesis Hlow : forall h, (h < k)%nat -> f h = Some false.
Hypothesis Hhigh : forall h, (k <= h < n)%nat -> f h = Some true.

Lemma Search_loop_boundary fuel : forall i j,
  (i <= k <= j)%nat -> (j <= n)%nat -> (j - i <= fuel)%nat ->
  Search_loop fuel i j f = Some k.
Proof.
  induction fuel as [|fuel IH]; intros i j Hk Hj Hfuel; cbn [Search_loop].
  - f_equal. lia.
  - destruct (Nat.ltb_spec i j) as [Hlt|Hge]; [|f_equal; lia].
    cbv zeta. set (h := ((i + j) / 2)%nat).
    assert (i <= h < j)%nat as Hh.
    { subst h. split.
      - apply Nat.div_le_lower_bound; lia.
      - apply Nat.Div0.div_lt_upper_bound; lia. }
    destruct (Nat.lt_ge_cases h k) as [Hhk|Hhk].
    + rewrite (Hlow h Hhk). cbn [mbind option_bind negb]. apply IH; lia.
    + rewrite (Hhigh h) by lia. cbn [mbind option_bind negb]. apply IH; lia.
Qed.

Lemma Search_boundary : (k <= n)%nat -> Search n f = Some k.
Proof. intros. unfold Search. apply Search_loop_boundary; lia. Qed.

End Search.

Lemma copy_within_chop {A} (l : list A) (s e : nat) :
  (s <= e)%nat -> (e <= length l)%nat ->
  take (length l - e + s) (copy_within s e l) = take s l ++ drop e l.
Proof.
  intros Hse He. unfold copy_within.
  replace (Nat.min (length l - s) (length l - e)) with (length l - e)%nat by lia.
  rewrite (take_ge (drop e l)) by (rewrite length_drop; lia).
  rewrite app_assoc.
  rewrite take_app_le by (rewrite length_app, length_take, length_drop; lia).
  apply take_ge. rewrite length_app, length_take, length_drop. lia.
Qed.

Lemma copy_within_shift {A} (l1 l2 : list A) (z : A) :
  copy_within (length l1 + 1) (length l1) ((l1 ++ l2) ++ [z])
  = l1 ++ (match l2 with [] => [z] | y :: _ => y :: l2 end).
Proof.
  unfold copy_within. rewrite !length_app. simpl.
  replace (Nat.min (length l1 + length l2 + 1 - (length l1 + 1))
                   (length l1 + length l2 + 1 - length l1)) with (length l2) by lia.
  rewrite <- app_assoc.
  rewrite drop_app_length.
  rewrite (drop_ge _ (length l1 + 1 + length l2)) by (rewrite !length_app; simpl; lia).
  rewrite app_nil_r, take_app_length.
  rewrite take_app_ge by lia.
  replace (length l1 + 1 - length l1)%nat with 1%nat by lia.
  rewrite <- app_assoc. f_equal.
  destruct l2 as [|y l2]; reflexivity.
Qed.

Lemma store_middle {A} (l1 l2 : list A) (x y : A) :
  store (length l1) y (l1 ++ x :: l2) = Some (l1 ++ y :: l2).
Proof.
  unfold store. rewrite decide_True by (rewrite length_app; simpl; lia).
  f_equal. rewrite insert_app_r_alt by lia.
  replace (length l1 - length l1)%nat with 0%nat by lia. reflexivity.
Qed.


End SliceFacts.

Module RangesFacts.

Import Slice SliceFacts Ranges RangeSet Range.

Lemma loop_trace_length acc rest :
  length (loop_trace acc rest).1 = S (length rest) /\ ((loop_trace acc rest).2 <= length rest)%nat.
Proof.
  revert acc. induction rest as [|x rest IH]; intros acc; simpl; [lia|].
  destruct (merge acc x) as [[] x']; simpl; [|lia].
  specialize (IH x'). destruct (loop_trace x' rest) as [l k]; simpl in *. lia.
Qed.

Lemma loop_trace_absorb acc rest :
  drop (loop_trace acc rest).2 (loop_trace acc rest).1 = absorb acc rest.
Proof.
  revert acc. induction rest as [|x rest IH]; intros acc; simpl; [done|].
  destruct (merge acc x) as [[] x']; simpl; [|done].
  specialize (IH x'). destruct (loop_trace x' rest) as [l k]; simpl in *. done.
Qed.

Lemma coalesce_loop_trace rest : forall pre acc e,
  coalesce_loop (length rest) (length pre) e (pre ++ acc :: rest) =
  Some ((if (loop_trace acc rest).2 =? 0 then e else length pre + (loop_trace acc rest).2)%nat,
        pre ++ (loop_trace acc rest).1).
Proof.
  induction rest as [|x rest IH]; intros pre acc e; simpl; [done|].

  rewrite (list_lookup_middle pre (x :: rest) acc (length pre) eq_refl). simpl.
  replace (pre ++ acc :: x :: rest) with ((pre ++ [acc]) ++ x :: rest)
    by (rewrite <- app_assoc; done).
  rewrite (list_lookup_middle (pre ++ [acc]) rest x (length pre + 1))
    by (rewrite length_app; simpl; lia).
  simpl.
  destruct (merge acc x) as [[] x'] eqn:Hm; simpl; [|rewrite <- app_assoc; done].
  replace (length pre + 1)%nat with (length (pre ++ [acc])) by (rewrite length_app; simpl; lia).
  rewrite store_middle. simpl.
  rewrite IH. destruct (loop_trace x' rest) as [l k]; simpl.
  rewrite <- app_assoc. simpl. f_equal. f_equal.
  rewrite length_app. simpl. destruct k; simpl; lia.
Qed.

Lemma coalesce_tail pre acc rest (s : nat) :
  (s <= length pre)%nat ->
  (coalesce_loop (length rest) (length pre) (length pre) (pre ++ acc :: rest)
     ≫= λ '(endChop, ranges2),
       if (s <? endChop)%nat then
         Some (take (length ranges2 - endChop + s) (copy_within s endChop ranges2))
       else Some ranges2)
  = Some (take s pre ++ absorb acc rest).
Proof.
  intros Hs. rewrite coalesce_loop_trace. simpl.
  pose proof (loop_trace_length acc rest) as [Hlen Hk].
  pose proof (loop_trace_absorb acc rest) as Hab.
  destruct (loop_trace acc rest) as [l k]; simpl in *.
  set (e := (if (k =? 0)%nat then length pre else (length pre + k)%nat)).
  assert (e = length pre + k)%nat as He by (subst e; destruct k; simpl; lia).
  destruct (Nat.ltb_spec s e) as [Hlt|Hge].
  - f_equal. rewrite SliceFacts.copy_within_chop by (rewrite ?length_app; lia).
    rewrite take_app_le by lia. f_equal.
    rewrite He, drop_app_ge by lia.
    replace (length pre + k - length pre)%nat with k by lia. done.
  - assert (s = length pre /\ k = 0%nat) as [-> ->] by lia.
    rewrite take_ge by lia. rewrite drop_0 in Hab. by rewrite Hab.
Qed.

Lemma coalesce_split l1 x l2 :
  coalesce (length l1) (l1 ++ x :: l2) = Some (coalesced l1 x l2).
Proof.
  unfold coalesce, coalesced.
  destruct l1 as [|y l1'] using rev_ind.
  - simpl. rewrite !Nat.sub_0_r.
    apply (coalesce_tail [] x l2 0). simpl; lia.
  - clear IHl1'. rewrite last_snoc. rewrite length_app; simpl.
    destruct (Nat.ltb_spec 0 (length l1' + 1)) as [_|?]; [|lia].
    replace (length l1' + 1 - 1)%nat with (length l1') by lia.
    rewrite <- (app_assoc l1' [y]). simpl.
    rewrite (list_lookup_middle l1' (x :: l2) y (length l1') eq_refl). simpl.
    replace (l1' ++ y :: x :: l2) with ((l1' ++ [y]) ++ x :: l2) by (rewrite <- app_assoc; done).
    rewrite (list_lookup_middle (l1' ++ [y]) l2 x (length l1' + 1))
      by (rewrite length_app; simpl; lia).
    simpl. destruct (merge y x) as [[] x'] eqn:Hm; simpl.
    + replace (length l1' + 1)%nat with (length (l1' ++ [y])) by (rewrite length_app; simpl; lia).
      rewrite store_middle. simpl.
      replace (length ((l1' ++ [y]) ++ x' :: l2) - 1 - length (l1' ++ [y]))%nat
        with (length l2) by (rewrite !length_app; simpl; lia).
      rewrite (coalesce_tail (l1' ++ [y]) x' l2 (length l1'))
        by (rewrite length_app; simpl; lia).
      done.
    + replace (length ((l1' ++ [y]) ++ x :: l2) - 1 - (length l1' + 1))%nat
        with (length l2) by (rewrite !length_app; simpl; lia).
      replace (length l1' + 1)%nat with (length (l1' ++ [y])) by (rewrite length_app; simpl; lia).
      rewrite (coalesce_tail (l1' ++ [y]) x l2 (length (l1' ++ [y]))) by lia.
      rewrite take_ge by lia. done.
Qed.


Lemma search_split l1 l2 r :
  Forall (fun x => Pos x < Pos r) l1 ->
  Forall (fun x => Pos r <= Pos x) l2 ->
  search (l1 ++ l2) r = Some (length l1).
Proof.
  intros H1 H2. unfold search.
  apply SliceFacts.Search_boundary; [| |rewrite length_app; lia].
  - intros h Hh. rewrite lookup_app_l by done.
    destruct (lookup_lt_is_Some_2 l1 h Hh) as [x Hx]. rewrite Hx; simpl.
    rewrite Forall_lookup in H1. specialize (H1 _ _ Hx).
    f_equal. rewrite Z.geb_leb. apply Z.leb_gt. done.
  - intros h [Hh1 Hh2]. rewrite length_app in Hh2.
    rewrite lookup_app_r by done.
    destruct (lookup_lt_is_Some_2 l2 (h - length l1)) as [x Hx]; [lia|].
    rewrite Hx; simpl. rewrite Forall_lookup in H2. specialize (H2 _ _ Hx).
    f_equal. rewrite Z.geb_leb. apply Z.leb_le. done.
Qed.

Lemma Insert_split r l1 l2 :
  IsEmpty r = false ->
  Forall (fun x => Pos x < Pos r) l1 ->
  Forall (fun x => Pos r <= Pos x) l2 ->
  Insert r (l1 ++ l2) = Some (placed r l1 l2).
Proof.
  intros Hr H1 H2. unfold Insert. rewrite Hr.
  destruct (Nat.eqb_spec (length (l1 ++ l2)) 0) as [Hlen|Hlen].
  - destruct l1, l2; simpl in Hlen; try lia. reflexivity.
  - rewrite (search_split l1 l2 r H1 H2). simpl.
    destruct l2 as [|d l2'].
    + rewrite app_nil_r, Nat.eqb_refl. simpl.
      replace (l1 ++ [zero]) with ((l1 ++ []) ++ [zero]) by (rewrite app_nil_r; done).
      rewrite copy_within_shift. rewrite store_middle. simpl.
      apply coalesce_split.
    + destruct (Nat.eqb_spec (length l1) (length (l1 ++ d :: l2'))) as [Heq|_].
      { rewrite length_app in Heq; simpl in Heq; lia. }
      rewrite (list_lookup_middle l1 l2' d (length l1) eq_refl). simpl.
      destruct (merge r d) as [[] d'] eqn:Hm; simpl.
      * rewrite store_middle. simpl. apply coalesce_split.
      * rewrite copy_within_shift. rewrite store_middle. simpl.
        apply coalesce_split.
Qed.

Ltac int64_bounds :=
  pose proof Int64Facts.bounds as [? ?].

Lemma End_solid r : solid r -> End r = Pos r + Size r.
Proof.
  intros (?&?&?). unfold End. int64_bounds.
  apply Int64Facts.add_small. lia.
Qed.

Lemma elem_of_bytes x r : x ∈ bytes r <-> Pos r <= x < Pos r + Size r.
Proof. unfold bytes. rewrite elem_of_list_to_set, elem_of_seqZ. done. Qed.

Lemma covered_nil : covered [] = ∅.
Proof. done. Qed.

Lemma covered_cons r rs : covered (r :: rs) = bytes r ∪ covered rs.
Proof. done. Qed.

Lemma covered_app l1 l2 : covered (l1 ++ l2) = covered l1 ∪ covered l2.
Proof.
  unfold covered. rewrite fmap_app. apply leibniz_equiv. apply union_list_app.
Qed.

Lemma elem_of_covered x rs :
  x ∈ covered rs <-> exists r, r ∈ rs /\ Pos r <= x < Pos r + Size r.
Proof.
  unfold covered. rewrite elem_of_union_list. split.
  - intros (X & HX & Hx). apply list_elem_of_fmap in HX as (r & -> & Hr).
    exists r. split; [done|]. by apply elem_of_bytes.
  - intros (r & Hr & Hx). exists (bytes r). split.
    + apply list_elem_of_fmap. eauto.
    + by apply elem_of_bytes.
Qed.

Lemma ok_mono lo lo' rs : lo' <= lo -> ok lo rs -> ok lo' rs.
Proof. destruct rs; simpl; [done|]. intros ? (?&?&?&?). repeat split; try done; lia. Qed.

Lemma ok_app lo l1 l2 : ok lo (l1 ++ l2) <-> ok lo l1 /\ ok (upper lo l1) l2.
Proof.
  revert lo. induction l1 as [|x l1 IH]; intros lo; simpl.
  - unfold upper; simpl. tauto.
  - rewrite IH. unfold upper; simpl. tauto.
Qed.

Lemma upper_snoc lo l a : upper lo (l ++ [a]) = Pos a + Size a + 1.
Proof. unfold upper. rewrite foldl_snoc. done. Qed.

Lemma ok_lower lo rs : ok lo rs -> Forall (fun x => lo <= Pos x) rs.
Proof.
  revert lo. induction rs as [|x rs IH]; intros lo; simpl; [constructor|].
  intros (?&?&?&Hok). constructor; [done|].
  eapply Forall_impl; [apply (IH _ Hok)|]. simpl. intros; lia.
Qed.

Lemma ok_solid lo rs : 0 <= lo -> ok lo rs -> Forall solid rs.
Proof.
  revert lo. induction rs as [|x rs IH]; intros lo Hlo; simpl; [constructor|].
  intros (?&?&?&Hok). constructor; [unfold solid; lia|].
  apply (IH (Pos x + Size x + 1)); [lia|done].
Qed.

Lemma merge_solid a b :
  solid a -> solid b -> Pos a <= Pos b ->
  merge a b = if Pos a + Size a <? Pos b then (false, b) else (true, hull a b).
Proof.
  intros Ha Hb Hab. unfold merge. rewrite (End_solid a Ha), (End_solid b Hb).
  destruct (Z.ltb_spec (Pos a + Size a) (Pos b)); [done|].
  f_equal. unfold hull. f_equal.
  destruct Ha as (?&?&?), Hb as (?&?&?). int64_bounds.
  destruct (Z.gtb_spec (Pos a + Size a) (Pos b + Size b)); [lia|].
  rewrite Int64Facts.sub_small by lia. rewrite Int64Facts.add_small by lia. lia.
Qed.

Lemma hull_solid a b :
  solid a -> solid b -> solid (hull a b).
Proof. intros (?&?&?) (?&?&?). unfold solid, hull; simpl. lia. Qed.

Lemma bytes_hull a b :
  solid a -> solid b -> Pos a <= Pos b <= Pos a + Size a ->
  bytes (hull a b) = bytes a ∪ bytes b.
Proof.
  intros (?&?&?) (?&?&?) ?. apply set_eq. intros x.
  rewrite elem_of_union, !elem_of_bytes. unfold hull; simpl. lia.
Qed.

Lemma absorb_ok T : forall acc,
  solid acc -> ok (Pos acc) T ->
  ok (Pos acc) (absorb acc T) /\ covered (absorb acc T) = bytes acc ∪ covered T.
Proof.
  induction T as [|x T IH]; intros acc Hacc HT.
  - simpl. destruct Hacc as (?&?&?). split; [lia|].
    rewrite !covered_cons, covered_nil. done.
  - simpl in HT. destruct HT as (Hpos & Hsz & Hend & HT).
    assert (solid x) as Hx by (destruct Hacc as (?&?&?); unfold solid; lia).
    simpl. rewrite (merge_solid acc x Hacc Hx Hpos).
    destruct (Z.ltb_spec (Pos acc + Size acc) (Pos x)) as [Hlt|Hge].
    + split; [|done]. simpl. destruct Hacc as (?&?&?). repeat split; try lia. done.
    + destruct (IH (hull acc x)) as [Hok Hcov].
      * by apply hull_solid.
      * eapply ok_mono; [|exact HT]. simpl. destruct Hacc as (?&?&?). lia.
      * split; [exact Hok|]. rewrite Hcov, covered_cons, bytes_hull by (done || lia).
        set_solver.
Qed.

Lemma split_at lo rs p :
  ok lo rs ->
  exists l1 l2, rs = l1 ++ l2 /\
    Forall (fun x => Pos x < p) l1 /\ Forall (fun x => p <= Pos x) l2.
Proof.
  revert lo. induction rs as [|x rs IH]; intros lo Hok.
  - exists [], []. repeat split; constructor.
  - destruct (Z.lt_ge_cases (Pos x) p) as [Hlt|Hge].
    + simpl in Hok. destruct Hok as (_&_&_&Hok).
      destruct (IH _ Hok) as (l1 & l2 & -> & H1 & H2).
      exists (x :: l1), l2. repeat split; [by constructor|done].
    + exists [], (x :: rs). repeat split; [constructor|].
      assert (ok (Pos x) (x :: rs)) as Hok'.
      { simpl in *. destruct Hok as (?&?&?&?). repeat split; try done. }
      eapply Forall_impl; [apply (ok_lower _ _ Hok')|].
      simpl. intros. lia.
Qed.

Lemma coalesced_ok l1 x T :
  solid x -> ok 0 l1 -> Forall (fun y => Pos y < Pos x) l1 -> ok (Pos x) T ->
  ok 0 (coalesced l1 x T) /\
  covered (coalesced l1 x T) = covered l1 ∪ (bytes x ∪ covered T).
Proof.
  intros Hx Hl1 Hlt HT. unfold coalesced.
  destruct (absorb_ok T x Hx HT) as [Hok Hcov].
  destruct l1 as [|a l1' _] using rev_ind.
  - simpl. split.
    + eapply ok_mono; [|exact Hok]. destruct Hx; lia.
    + rewrite Hcov, covered_nil. set_solver.
  - rewrite last_snoc.
    assert (solid a) as Ha.
    { pose proof (ok_solid 0 _ ltac:(lia) Hl1) as Hs.
      rewrite Forall_app in Hs. destruct Hs as [_ Hs]. by inversion Hs. }
    assert (Pos a < Pos x) as Hax.
    { rewrite Forall_app in Hlt. destruct Hlt as [_ Hs]. by inversion Hs. }
    rewrite (merge_solid a x Ha Hx) by lia.
    apply ok_app in Hl1 as Hsplit. destruct Hsplit as [Hl1' Hlast].
    simpl in Hlast.
    destruct (Z.ltb_spec (Pos a + Size a) (Pos x)) as [Hgap|Htouch].
    + split.
      * apply ok_app. split; [done|]. rewrite upper_snoc.
        eapply ok_mono; [|exact Hok]. lia.
      * rewrite covered_app, Hcov. done.
    + rewrite length_app; simpl.
      replace (length l1' + 1 - 1)%nat with (length l1') by lia.
      rewrite take_app_length.
      destruct (absorb_ok T (hull a x)) as [Hok' Hcov'].
      * by apply hull_solid.
      * simpl. eapply ok_mono; [|exact HT]. lia.
      * simpl in Hok'. split.
        -- apply ok_app. split; [done|]. eapply ok_mono; [|exact Hok']. lia.
        -- rewrite !covered_app, Hcov', covered_cons, covered_nil.
           rewrite bytes_hull by (done || lia). set_solver.
Qed.

Lemma placed_ok r l1 l2 :
  solid r -> ok 0 (l1 ++ l2) ->
  Forall (fun x => Pos x < Pos r) l1 -> Forall (fun x => Pos r <= Pos x) l2 ->
  ok 0 (placed r l1 l2) /\
  covered (placed r l1 l2) = bytes r ∪ covered (l1 ++ l2).
Proof.
  intros Hr Hok H1 H2. unfold placed.
  apply ok_app in Hok as Hsplit. destruct Hsplit as [Hl1 Hl2].
  destruct l2 as [|d l2'].
  - destruct (coalesced_ok l1 r [] Hr Hl1 H1 I) as [Ha Hb].
    split; [done|]. rewrite Hb, app_nil_r, covered_nil. set_solver.
  - assert (solid d) as Hd.
    { pose proof (ok_solid 0 _ ltac:(lia) Hok) as Hs.
      rewrite Forall_app in Hs. destruct Hs as [_ Hs]. by inversion Hs. }
    assert (Pos r <= Pos d) as Hrd by (by inversion H2).
    rewrite (merge_solid r d Hr Hd Hrd).
    simpl in Hl2. destruct Hl2 as (Hlo & Hsz & Hend & Hl2').
    destruct (Z.ltb_spec (Pos r + Size r) (Pos d)) as [Hgap|Htouch].
    + destruct (coalesced_ok l1 r (d :: l2') Hr Hl1 H1) as [Ha Hb].
      { simpl. repeat split; try done. }
      split; [done|]. rewrite Hb, covered_app. set_solver.
    + destruct (coalesced_ok l1 (hull r d) l2') as [Ha Hb]; try done.
      { by apply hull_solid. }
      { simpl. eapply ok_mono; [|exact Hl2']. lia. }
      split; [done|]. rewrite Hb, covered_app, covered_cons.
      rewrite bytes_hull by (done || lia). set_solver.
Qed.

Lemma Insert_ok r rs :
  valid r -> ok 0 rs ->
  exists rs', Insert r rs = Some rs' /\ ok 0 rs' /\
    covered rs' = bytes r ∪ covered rs.
Proof.
  intros (Hp & Hs & He) Hok.
  destruct (Z.eq_dec (Size r) 0) as [Hz|Hnz].
  - exists rs. unfold Insert, IsEmpty. rewrite Hz. simpl. repeat split; [done|].
    assert (bytes r = ∅) as ->; [|set_solver].
    apply set_eq. intros x. rewrite elem_of_bytes. set_solver by lia.
  - assert (solid r) as Hr by (unfold solid; lia).
    destruct (split_at 0 rs (Pos r) Hok) as (l1 & l2 & -> & H1 & H2).
    exists (placed r l1 l2). split.
    + apply Insert_split; [|done|done]. unfold IsEmpty. apply Z.leb_gt. lia.
    + by apply placed_ok.
Qed.

Lemma covered_lower lo rs x : ok lo rs -> x ∈ covered rs -> lo <= x.
Proof.
  intros Hok Hx. apply elem_of_covered in Hx as (r & Hr & Hx).
  pose proof (ok_lower _ _ Hok) as Hl. rewrite Forall_forall in Hl.
  specialize (Hl r Hr). simpl in Hl. lia.
Qed.

Lemma size_bytes r : 0 <= Size r -> Z.of_nat (size (bytes r)) = Size r.
Proof.
  intros. unfold bytes. rewrite size_list_to_set by apply NoDup_seqZ.
  rewrite length_seqZ. lia.
Qed.

Lemma Size_ok rs : forall lo acc,
  0 <= acc <= lo -> lo <= Int64.max_int + 1 -> ok lo rs ->
  foldl (fun size r => Int64.add size (Size r)) acc rs
    = acc + Z.of_nat (size (covered rs)).
Proof.
  induction rs as [|x rs IH]; intros lo acc Hacc Hlo Hok.
  - cbn [foldl]. rewrite covered_nil, size_empty. lia.
  - simpl in Hok. destruct Hok as (Hpos & Hsz & Hend & Hok).
    cbn [foldl]. int64_bounds.
    rewrite Int64Facts.add_small by lia.
    rewrite (IH (Pos x + Size x + 1)) by (done || lia).
    rewrite covered_cons, size_union.
    + rewrite Nat2Z.inj_add, size_bytes by lia. lia.
    + intros y Hy1 Hy2. apply elem_of_bytes in Hy1.
      apply (covered_lower _ _ _ Hok) in Hy2. lia.
Qed.

Lemma Size_covered rs : ok 0 rs -> Ranges.Size rs = Z.of_nat (size (covered rs)).
Proof.
  intros Hok. unfold Ranges.Size. int64_bounds.
  rewrite (Size_ok rs 0 0) by (done || lia). lia.
Qed.

Lemma ok_unique rs1 : forall rs2 lo1 lo2,
  ok lo1 rs1 -> ok lo2 rs2 -> covered rs1 = covered rs2 -> rs1 = rs2.
Proof.
  induction rs1 as [|a rs1 IH]; intros [|b rs2] lo1 lo2 H1 H2 Hc.
  - done.
  - exfalso. simpl in H2. destruct H2 as (?&?&?&?).
    assert (Pos b ∈ covered (b :: rs2)) as Hin.
    { rewrite covered_cons, elem_of_union, elem_of_bytes. lia. }
    rewrite <- Hc, covered_nil in Hin. by apply not_elem_of_empty in Hin.
  - exfalso. simpl in H1. destruct H1 as (?&?&?&?).
    assert (Pos a ∈ covered (a :: rs1)) as Hin.
    { rewrite covered_cons, elem_of_union, elem_of_bytes. lia. }
    rewrite Hc, covered_nil in Hin. by apply not_elem_of_empty in Hin.
  - simpl in H1, H2.
    destruct H1 as (Ha1 & Ha2 & Ha3 & H1), H2 as (Hb1 & Hb2 & Hb3 & H2).
    assert (forall x, (Pos a <= x < Pos a + Size a \/ x ∈ covered rs1) <->
                      (Pos b <= x < Pos b + Size b \/ x ∈ covered rs2)) as Hiff.
    { intros x. rewrite <- !elem_of_bytes, <- !elem_of_union, <- !covered_cons, Hc. done. }
    assert (forall x, x ∈ covered rs1 -> Pos a + Size a + 1 <= x) as Hl1
      by (intros x; apply covered_lower; done).
    assert (forall x, x ∈ covered rs2 -> Pos b + Size b + 1 <= x) as Hl2
      by (intros x; apply covered_lower; done).
    assert (Pos a = Pos b) as Hp.
    { pose proof (proj1 (Hiff (Pos a)) ltac:(lia)) as [?|?%Hl2];
      pose proof (proj2 (Hiff (Pos b)) ltac:(lia)) as [?|?%Hl1]; lia. }
    assert (Size a = Size b) as Hs.
    { destruct (Z.lt_trichotomy (Size a) (Size b)) as [Hlt|[?|Hgt]]; [|done|].
      - pose proof (proj2 (Hiff (Pos a + Size a)) ltac:(lia)) as [?|?%Hl1]; lia.
      - pose proof (proj1 (Hiff (Pos b + Size b)) ltac:(lia)) as [?|?%Hl2]; lia. }
    assert (a = b) as -> by (destruct a, b; simpl in *; congruence).
    f_equal. apply (IH rs2 _ _ H1 H2).
    apply set_eq. intros x. specialize (Hiff x).
    split; intros Hx.
    + pose proof (Hl1 x Hx). destruct (proj1 Hiff (or_intror Hx)); [lia|done].
    + pose proof (Hl2 x Hx). destruct (proj2 Hiff (or_intror Hx)); [lia|done].
Qed.

Lemma ok_gap rs : forall lo i j a b,
  ok lo rs -> rs !! i = Some a -> rs !! j = Some b -> (i < j)%nat ->
  Pos a + Size a < Pos b.
Proof.
  induction rs as [|x rs IH]; intros lo i j a b Hok Hi Hj Hij; [done|].
  simpl in Hok. destruct Hok as (?&?&?&Hok).
  destruct j as [|j]; [lia|]. simpl in Hj.
  destruct i as [|i]; simpl in Hi.
  - inversion Hi; subst.
    pose proof (ok_lower _ _ Hok) as Hl. rewrite Forall_lookup in Hl.
    specialize (Hl _ _ Hj). simpl in Hl. lia.
  - apply (IH _ i j a b Hok Hi Hj). lia.
Qed.

Lemma ok_invariant lo rs : 0 <= lo -> ok lo rs -> invariant rs /\ Forall valid rs.
Proof.
  intros Hlo Hok. pose proof (ok_solid _ _ Hlo Hok) as Hs. split; [split|].
  - intros i a Hi. rewrite Forall_lookup in Hs. by destruct (Hs _ _ Hi) as (?&?&?).
  - intros i a b Hi Hj. rewrite Forall_lookup in Hs.
    rewrite (End_solid a) by eauto.
    apply (ok_gap rs lo i (S i) a b); auto.
  - eapply Forall_impl; [exact Hs|]. intros r (?&?&?). unfold valid. lia.
Qed.

Lemma invariant_ok rs : invariant rs -> Forall valid rs -> ok 0 rs.
Proof.
  intros [Hsz Hgap] Hv.
  assert (forall lo, (forall a, rs !! 0%nat = Some a -> lo <= Pos a) -> ok lo rs) as Hgen.
  { induction rs as [|x rs IH]; intros lo Hlo; [done|].
    inversion Hv as [|? ? (Hp & Hs & He) Hv']; subst.
    pose proof (Hsz 0%nat x eq_refl) as Hx.
    simpl. repeat split; [by apply Hlo|done|done|].
    apply IH; [| |done|].
    - intros i a Hi. apply (Hsz (S i) a Hi).
    - intros i a b Hi Hj. apply (Hgap (S i) a b Hi Hj).
    - intros a Ha. pose proof (Hgap 0%nat x a eq_refl Ha) as Hg.
      rewrite End_solid in Hg by (unfold solid; lia). lia. }
  apply Hgen. intros a Ha. rewrite Forall_lookup in Hv.
  by destruct (Hv _ _ Ha) as (?&?&?).
Qed.

Lemma InsertAll_from l : forall acc,
  Forall valid l -> ok 0 acc ->
  exists rs, foldl (fun acc r => acc ≫= Insert r) (Some acc) l = Some rs /\
    ok 0 rs /\ covered rs = covered acc ∪ covered l.
Proof.
  induction l as [|r l IH]; intros acc Hl Hacc.
  - exists acc. simpl. repeat split; [done|]. rewrite covered_nil. set_solver.
  - inversion Hl as [|? ? Hr Hl']; subst.
    destruct (Insert_ok r acc Hr Hacc) as (acc' & Hins & Hok' & Hcov').
    destruct (IH acc' Hl' Hok') as (rs & Hrs & Hok & Hcov).
    exists rs. cbn [foldl]. simpl. rewrite Hins. repeat split; [done|done|].
    rewrite Hcov, Hcov', covered_cons. set_solver.
Qed.

(** Claim C4.  After any sequence of [Insert] operations on valid ranges,
    starting from the empty range set, no operation panics and the
    resulting set satisfies the invariant: every member has a positive
    size, the members are sorted by [Pos], and every member ends strictly
    before the next one starts; and [Size()] is the number of bytes the
    inserted ranges cover, each byte counted once. *)
Theorem InsertAll_invariant (l : list Range.t) :
  Forall valid l ->
  exists rs, InsertAll l = Some rs /\
    invariant rs /\
    (forall i j a b, rs !! i = Some a -> rs !! j = Some b -> (i < j)%nat -> Pos a < Pos b) /\
    Ranges.Size rs = Z.of_nat (size (covered l)).
Proof.
  intros Hl. destruct (InsertAll_from l [] Hl I) as (rs & Hrs & Hok & Hcov).
  exists rs. split; [exact Hrs|].
  destruct (ok_invariant 0 rs ltac:(lia) Hok) as [Hinv Hv].
  split; [exact Hinv|]. split.
  - intros i j a b Hi Hj Hij. pose proof (ok_gap rs 0 i j a b Hok Hi Hj Hij).
    destruct Hinv as [Hsz _]. specialize (Hsz _ _ Hi). lia.
  - rewrite (Size_covered rs Hok), Hcov, covered_nil. f_equal. f_equal. set_solver.
Qed.

(** Claim C5.  On a range set that satisfies the invariant, inserting a
    range a second time changes nothing: the second [Insert] returns the
    set the first one produced. *)
Theorem Insert_idempotent (rs : list Range.t) (r : Range.t) :
  invariant rs -> Forall valid rs -> valid r ->
  exists rs', Insert r rs = Some rs' /\ Insert r rs' = Some rs'.
Proof.
  intros Hinv Hv Hr. pose proof (invariant_ok rs Hinv Hv) as Hok.
  destruct (Insert_ok r rs Hr Hok) as (rs1 & H1 & Hok1 & Hc1).
  destruct (Insert_ok r rs1 Hr Hok1) as (rs2 & H2 & Hok2 & Hc2).
  exists rs1. split; [done|]. rewrite H2. f_equal.
  apply (ok_unique rs2 rs1 0 0 Hok2 Hok1). rewrite Hc2, Hc1. set_solver.
Qed.

Lemma Find_split r l1 l2 :
  IsEmpty r = false ->
  Forall (fun x => Pos x < Pos r) l1 ->
  Forall (fun x => Pos r <= Pos x) l2 ->
  Find (l1 ++ l2) r = Some (find_at r (last l1) (head l2)).
Proof.
  intros Hr H1 H2. unfold Find, find_at. rewrite Hr.
  rewrite (search_split l1 l2 r H1 H2). simpl.
  destruct l1 as [|a l1' _] using rev_ind.
  - simpl. destruct l2 as [|d l2']; simpl; [done|].
    destruct (IsEmpty (Range.Intersection d r)); [done|].
    destruct (Pos r <? Pos (Range.Intersection d r)); done.
  - rewrite last_snoc.
    assert (length (l1' ++ [a]) = S (length l1')) as Hn
      by (rewrite length_app; simpl; lia).
    rewrite length_app, Hn. cbn [Nat.ltb Nat.leb].
    rewrite (lookup_app_l (l1' ++ [a]) l2 (S (length l1') - 1)) by (rewrite Hn; lia).
    replace (S (length l1') - 1)%nat with (length l1') by lia.
    rewrite (list_lookup_middle l1' [] a (length l1') eq_refl). simpl.
    destruct (IsEmpty (Range.Intersection a r)); simpl; [|done].
    rewrite (lookup_app_r (l1' ++ [a]) l2 (S (length l1'))) by (rewrite Hn; lia).
    rewrite Hn, Nat.sub_diag.
    destruct l2 as [|d l2']; simpl.
    + destruct (Nat.leb_spec (length l1' + 0) (length l1')); [done|lia].
    + destruct (Nat.leb_spec (length l1' + S (length l2')) (length l1')); [lia|].
      destruct (IsEmpty (Range.Intersection d r)); [done|].
      destruct (Pos r <? Pos (Range.Intersection d r)); done.
Qed.

Lemma Intersection_prev a r :
  solid a -> solid r -> Pos a < Pos r ->
  Range.Intersection a r =
    if Pos r <? Pos a + Size a
    then mk (Pos r) (Z.min (Pos a + Size a) (Pos r + Size r) - Pos r)
    else zero.
Proof.
  intros Ha Hr Hlt. unfold Range.Intersection.
  rewrite (End_solid a Ha), (End_solid r Hr).
  destruct Ha as (?&?&?), Hr as (?&?&?). int64_bounds.
  destruct (Z.geb_spec (Pos a) (Pos r)); [lia|]. simpl.
  destruct (Z.geb_spec (Pos r) (Pos a)); [|lia]. simpl.
  destruct (Z.ltb_spec (Pos r) (Pos a + Size a)); [|done].
  unfold Range.max, Range.min.
  destruct (Z.gtb_spec (Pos a) (Pos r)); [lia|].
  f_equal. destruct (Z.ltb_spec (Pos a + Size a) (Pos r + Size r));
    rewrite Int64Facts.sub_small by lia; lia.
Qed.

Lemma Intersection_found d r :
  solid d -> solid r -> Pos r <= Pos d ->
  Range.Intersection d r =
    if Pos d <? Pos r + Size r
    then mk (Pos d) (Z.min (Pos d + Size d) (Pos r + Size r) - Pos d)
    else zero.
Proof.
  intros Hd Hr Hle. unfold Range.Intersection.
  rewrite (End_solid d Hd), (End_solid r Hr).
  destruct Hd as (?&?&?), Hr as (?&?&?). int64_bounds.
  destruct (Z.geb_spec (Pos d) (Pos r)); [|lia]. simpl.
  destruct (Z.ltb_spec (Pos d) (Pos r + Size r)); simpl.
  - assert (Range.max (Pos d) (Pos r) = Pos d) as ->.
    { unfold Range.max. destruct (Z.gtb_spec (Pos d) (Pos r)); lia. }
    f_equal. unfold Range.min.
    destruct (Z.ltb_spec (Pos d + Size d) (Pos r + Size r));
      rewrite Int64Facts.sub_small by lia; lia.
  - destruct (Z.geb_spec (Pos r) (Pos d)); [|done]. simpl.
    destruct (Z.ltb_spec (Pos r) (Pos d + Size d)); [lia|done].
Qed.

Ltac range_eq :=
  repeat match goal with
         | |- (_, _) = (_, _) => apply pair_equal_spec; split
         | |- mk _ _ = mk _ _ => apply f_equal2
         end; try reflexivity; try lia.

Lemma inside_wrap i r :
  solid r -> Pos i = Pos r -> 0 < Size i <= Size r -> Pos i + Size i <= Int64.max_int ->
  (i, mk (End i) (Int64.sub (Size r) (Size i)), true)
  = (mk (Pos r) (Size i), mk (Pos r + Size i) (Size r - Size i), true).
Proof.
  intros (?&?&?) Hp Hs He. int64_bounds.
  rewrite End_solid by (unfold solid; lia).
  rewrite Int64Facts.sub_small by lia. destruct i; simpl in *. subst. done.
Qed.

Lemma find_at_spec r prev found :
  solid r ->
  (forall a, prev = Some a -> solid a /\ Pos a < Pos r) ->
  (forall d, found = Some d -> solid d /\ Pos r <= Pos d) ->
  find_at r prev found = find_spec r prev found.
Proof.
  intros Hr Hprev Hfound. unfold find_at, find_spec.
  assert (match found with
          | Some f =>
              let i := Range.Intersection f r in
              if IsEmpty i then (r, zero, false)
              else if Pos r <? Pos i then
                let curr := mk (Pos r) (Int64.sub (Pos i) (Pos r)) in
                (curr, mk (End curr) (Int64.sub (Size r) (Size curr)), false)
              else (i, mk (End i) (Int64.sub (Size r) (Size i)), true)
          | None => (r, zero, false)
          end = find_right r found) as Hf.
  { unfold find_right. destruct found as [d|]; [|done].
    destruct (Hfound d eq_refl) as [Hd Hle].
    cbv zeta. rewrite (Intersection_found d r Hd Hr Hle).
    pose proof Hr as (?&?&?). pose proof Hd as (?&?&?). int64_bounds.
    destruct (Z.ltb_spec (Pos d) (Pos r + Size r)) as [Hin|Hout].
    - unfold IsEmpty at 1. cbn [Size Pos].
      destruct (Z.leb_spec (Z.min (Pos d + Size d) (Pos r + Size r) - Pos d) 0); [lia|].
      destruct (Z.eqb_spec (Pos d) (Pos r)) as [Heq|Hne].
      + destruct (Z.ltb_spec (Pos r) (Pos d)); [lia|].
        rewrite inside_wrap by (simpl; (done || lia)).
        unfold inside. simpl. range_eq.
      + destruct (Z.ltb_spec (Pos r) (Pos d)); [|lia].
        unfold gap_to. rewrite Int64Facts.sub_small by lia.
        rewrite End_solid by (unfold solid; simpl; lia). simpl.
        rewrite Int64Facts.sub_small by lia. range_eq.
    - simpl. destruct (Z.eqb_spec (Pos d) (Pos r)); [lia|done]. }
  destruct prev as [a|]; [|exact Hf].
  destruct (Hprev a eq_refl) as [Ha Hlt].
  cbv zeta. rewrite (Intersection_prev a r Ha Hr Hlt).
  pose proof Hr as (?&?&?). pose proof Ha as (?&?&?). int64_bounds.
  destruct (Z.ltb_spec (Pos r) (Pos a + Size a)) as [Hin|Hout].
  - unfold IsEmpty at 1. cbn [Size Pos].
    destruct (Z.leb_spec (Z.min (Pos a + Size a) (Pos r + Size r) - Pos r) 0); [lia|].
    cbn [negb]. rewrite inside_wrap by (simpl; (done || lia)).
    unfold inside. simpl. range_eq.
  - simpl. exact Hf.
Qed.

Lemma ok_contains_unique lo rs m1 m2 x :
  ok lo rs -> m1 ∈ rs -> m2 ∈ rs ->
  Pos m1 <= x < Pos m1 + Size m1 -> Pos m2 <= x < Pos m2 + Size m2 -> m1 = m2.
Proof.
  intros Hok H1 H2 Hx1 Hx2.
  apply list_elem_of_lookup in H1 as [i Hi]. apply list_elem_of_lookup in H2 as [j Hj].
  destruct (Nat.lt_trichotomy i j) as [Hlt|[->|Hgt]].
  - pose proof (ok_gap rs lo i j m1 m2 Hok Hi Hj Hlt). lia.
  - congruence.
  - pose proof (ok_gap rs lo j i m2 m1 Hok Hj Hi Hgt). lia.
Qed.

Lemma ok_last_end lo l a m :
  ok lo l -> last l = Some a -> m ∈ l -> Pos m + Size m <= Pos a + Size a.
Proof.
  intros Hok Hlast Hm. apply last_Some in Hlast as [l' ->].
  apply elem_of_app in Hm as [Hm|Hm].
  - apply list_elem_of_lookup in Hm as [i Hi].
    pose proof (lookup_lt_Some _ _ _ Hi) as Hlen.
    pose proof (ok_gap (l' ++ [a]) lo i (length l') m a Hok) as Hg.
    rewrite lookup_app_l in Hg by done.
    rewrite (list_lookup_middle l' [] a (length l') eq_refl) in Hg.
    specialize (Hg Hi eq_refl Hlen).
    pose proof (ok_app lo l' [a]) as [Hs _]. destruct (Hs Hok) as [_ Ha].
    simpl in Ha. lia.
  - apply list_elem_of_singleton in Hm as ->. lia.
Qed.

Lemma ok_head_pos lo l d m :
  ok lo l -> head l = Some d -> m ∈ l -> Pos d <= Pos m.
Proof.
  intros Hok Hhead Hm. destruct l as [|d' l]; [done|]. simpl in Hhead.
  inversion Hhead; subst.
  assert (ok (Pos d) (d :: l)) as Hok'.
  { simpl in *. destruct Hok as (?&?&?&?). repeat split; try done. }
  pose proof (ok_lower _ _ Hok') as Hl. rewrite Forall_forall in Hl. by apply Hl.
Qed.

Lemma Find_ok rs r :
  ok 0 rs -> solid r ->
  exists l1 l2, rs = l1 ++ l2 /\
    Forall (fun x => Pos x < Pos r) l1 /\ Forall (fun x => Pos r <= Pos x) l2 /\
    Find rs r = Some (find_spec r (last l1) (head l2)).
Proof.
  intros Hok Hr. destruct (split_at 0 rs (Pos r) Hok) as (l1 & l2 & -> & H1 & H2).
  exists l1, l2. repeat split; try done.
  rewrite Find_split; try done.
  - f_equal. pose proof (ok_solid 0 _ ltac:(lia) Hok) as Hs.
    rewrite Forall_app in Hs. destruct Hs as [Hs1 Hs2].
    apply find_at_spec; [done| |].
    + intros a Ha. apply last_Some in Ha as [l' ->].
      rewrite Forall_app in Hs1, H1. destruct Hs1 as [_ Hs1], H1 as [_ H1].
      inversion Hs1; inversion H1; subst. done.
    + intros d Hd. destruct l2 as [|d' l2]; [done|]. simpl in Hd.
      inversion Hd; subst. inversion Hs2; inversion H2; subst. done.
  - unfold IsEmpty. apply Z.leb_gt. by destruct Hr as (?&?&?).
Qed.

Lemma Find_classify rs r :
  ok 0 rs -> solid r ->
  (exists m, m ∈ rs /\ Pos m <= Pos r < Pos m + Size m /\
     Find rs r = Some (inside m r)) \/
  ((forall m, m ∈ rs -> ~ (Pos m <= Pos r < Pos m + Size m)) /\
   ((exists d, d ∈ rs /\ Pos r < Pos d < Pos r + Size r /\
       (forall m, m ∈ rs -> Pos r < Pos m -> Pos d <= Pos m) /\
       Find rs r = Some (gap_to d r)) \/
    ((forall m, m ∈ rs -> ~ (Pos r < Pos m < Pos r + Size r)) /\
     Find rs r = Some (r, zero, false)))).
Proof.
  intros Hok Hr.
  destruct (Find_ok rs r Hok Hr) as (l1 & l2 & -> & H1 & H2 & HF).
  rewrite HF. clear HF.
  apply ok_app in Hok as Hsplit. destruct Hsplit as [Hok1 Hok2].
  rewrite Forall_forall in H1, H2.
  pose proof Hr as (Hr1 & Hr2 & Hr3).
  pose proof (ok_solid 0 _ ltac:(lia) Hok) as Hs. rewrite Forall_forall in Hs.
  assert ((exists a, last l1 = Some a /\ Pos r < Pos a + Size a) \/
          ((forall m, m ∈ l1 -> Pos m + Size m <= Pos r) /\
           find_spec r (last l1) (head l2) = find_right r (head l2))) as [Hin|[Hl1 ->]].
  { unfold find_spec. destruct (last l1) as [a|] eqn:Hlast.
    - destruct (Z.ltb_spec (Pos r) (Pos a + Size a)); [left; eauto|].
      right. split; [|done]. intros m Hm.
      pose proof (ok_last_end 0 l1 a m Hok1 Hlast Hm). lia.
    - right. split; [|done]. apply last_None in Hlast as ->. intros m Hm.
      by apply elem_of_nil in Hm. }
  - destruct Hin as (a & Hlast & Hlt). left. exists a.
    assert (a ∈ l1) as Ha by (apply last_Some in Hlast as [l' ->]; set_solver).
    specialize (H1 a Ha). simpl in H1.
    split; [set_solver|]. split; [lia|].
    unfold find_spec. rewrite Hlast.
    destruct (Z.ltb_spec (Pos r) (Pos a + Size a)); [done|lia].
  - unfold find_right. destruct (head l2) as [d|] eqn:Hhead.
    + assert (d ∈ l2) as Hd by (destruct l2; simpl in Hhead; [done|]; set_solver).
      pose proof (H2 d Hd) as Hrd. simpl in Hrd.
      assert (forall m, m ∈ l2 -> Pos d <= Pos m) as Hmin
        by (intros m Hm; eapply ok_head_pos; eauto).
      assert (0 < Size d) as Hsd by (destruct (Hs d) as (?&?&?); [set_solver|done]).
      destruct (Z.eqb_spec (Pos d) (Pos r)) as [Heq|Hne].
      * left. exists d. split; [set_solver|]. split; [lia|done].
      * right. split.
        { intros m [Hm|Hm]%elem_of_app Hc.
          - specialize (Hl1 m Hm). lia.
          - specialize (Hmin m Hm). lia. }
        destruct (Z.ltb_spec (Pos d) (Pos r + Size r)) as [Hlt|Hge].
        -- left. exists d. split; [set_solver|]. split; [lia|]. split; [|done].
           intros m [Hm|Hm]%elem_of_app Hc.
           ++ specialize (H1 m Hm). simpl in H1. lia.
           ++ by apply Hmin.
        -- right. split; [|done]. intros m [Hm|Hm]%elem_of_app Hc.
           ++ specialize (H1 m Hm). simpl in H1. lia.
           ++ specialize (Hmin m Hm). lia.
    + assert (l2 = []) as -> by (destruct l2; done).
      right. split.
      { intros m [Hm|Hm]%elem_of_app Hc; [|by apply elem_of_nil in Hm].
        specialize (Hl1 m Hm). lia. }
      right. split; [|done]. intros m [Hm|Hm]%elem_of_app Hc;
        [|by apply elem_of_nil in Hm].
      specialize (H1 m Hm). simpl in H1. lia.
Qed.

Lemma End_valid r : valid r -> End r = Pos r + Size r.
Proof.
  intros (?&?&?). unfold End. int64_bounds. apply Int64Facts.add_small. lia.
Qed.

Lemma ok_end_uncovered lo rs m :
  ok lo rs -> m ∈ rs -> Pos m + Size m ∉ covered rs.
Proof.
  intros Hok Hm Hc. apply elem_of_covered in Hc as (m' & Hm' & Hc).
  apply list_elem_of_lookup in Hm as [i Hi]. apply list_elem_of_lookup in Hm' as [j Hj].
  destruct (Nat.lt_trichotomy i j) as [Hlt|[->|Hgt]].
  - pose proof (ok_gap rs lo i j m m' Hok Hi Hj Hlt). lia.
  - assert (m = m') as -> by congruence. lia.
  - pose proof (ok_gap rs lo j i m' m Hok Hj Hi Hgt).
    assert (0 < Size m).
    { clear -Hok Hi. revert lo i Hok Hi. induction rs as [|x rs IH]; intros lo i Hok Hi; [done|].
      simpl in Hok. destruct Hok as (?&?&?&?). destruct i; simpl in Hi.
      - by inversion Hi; subst.
      - eapply IH; eauto. }
    lia.
Qed.

Lemma Find_step rs r :
  ok 0 rs -> solid r ->
  exists curr next present, Find rs r = Some (curr, next, present) /\
    Pos curr = Pos r /\ solid curr /\ valid next /\ Size next < Size r /\
    bytes r = bytes curr ∪ bytes next /\
    (present = true -> bytes curr ⊆ covered rs /\ (0 < Size next -> Pos next ∉ covered rs)) /\
    (present = false -> bytes curr ## covered rs).
Proof.
  intros Hok Hr. pose proof Hr as (Hr1 & Hr2 & Hr3).
  pose proof (ok_solid 0 _ ltac:(lia) Hok) as Hs. rewrite Forall_forall in Hs.
  assert (forall x m, m ∈ rs -> Pos m <= x < Pos m + Size m ->
            ~ (Pos m <= Pos r < Pos m + Size m) -> Pos r <= x -> Pos r < Pos m) as Hright
    by (intros; lia).
  destruct (Find_classify rs r Hok Hr)
    as [(m & Hm & Hin & ->)|[Hnone [(d & Hd & Hdr & Hmin & ->)|[Hno ->]]]].
  - destruct (Hs m Hm) as (Hm1 & Hm2 & Hm3).
    eexists _, _, _. split; [reflexivity|]. simpl.
    split; [done|]. split; [unfold solid; simpl; lia|].
    split; [unfold valid; simpl; lia|]. split; [lia|]. split.
    { apply set_eq. intros x. rewrite elem_of_union, !elem_of_bytes. simpl. lia. }
    split; [|done]. intros _. split.
    + intros x Hx. apply elem_of_bytes in Hx. simpl in Hx.
      apply elem_of_covered. exists m. split; [done|lia].
    + intros Hpos.
      replace (Z.min (Pos m + Size m) (Pos r + Size r)) with (Pos m + Size m) by lia.
      by apply (ok_end_uncovered 0).
  - eexists _, _, _. split; [reflexivity|]. simpl.
    split; [done|]. split; [unfold solid; simpl; lia|].
    split; [unfold valid; simpl; lia|]. split; [lia|]. split.
    { apply set_eq. intros x. rewrite elem_of_union, !elem_of_bytes. simpl. lia. }
    split; [done|]. intros _ x Hx Hc. apply elem_of_bytes in Hx. simpl in Hx.
    apply elem_of_covered in Hc as (m & Hm & Hc).
    pose proof (Hright x m Hm Hc (Hnone m Hm) ltac:(lia)) as Hlt.
    specialize (Hmin m Hm Hlt). lia.
  - exists r, zero, false. split; [reflexivity|].
    split; [done|]. split; [done|]. split; [unfold valid; simpl; int64_bounds; lia|].
    simpl. split; [lia|]. split.
    { apply set_eq. intros x. rewrite elem_of_union, !elem_of_bytes. simpl. lia. }
    split; [done|]. intros _ x Hx Hc. apply elem_of_bytes in Hx.
    apply elem_of_covered in Hc as (m & Hm & Hc).
    pose proof (Hright x m Hm Hc (Hnone m Hm) ltac:(lia)) as Hlt.
    apply (Hno m Hm). lia.
Qed.

Lemma bytes_empty r : Size r <= 0 -> bytes r = ∅.
Proof.
  intros. apply set_eq. intros x. rewrite elem_of_bytes.
  split; [lia|]. intros Hx. by apply not_elem_of_empty in Hx.
Qed.

Lemma Intersection_loop_ok rs fuel : forall r acc,
  ok 0 rs -> valid r -> ok 0 acc -> (Z.to_nat (Size r) <= fuel)%nat ->
  exists res, Intersection_loop fuel rs r acc = Some (Some res) /\
    ok 0 res /\ covered res = covered acc ∪ (bytes r ∩ covered rs).
Proof.
  induction fuel as [|fuel IH]; intros r acc Hok Hr Hacc Hfuel.
  - assert (Size r = 0) as Hz by (destruct Hr as (?&?&?); lia).
    exists acc. simpl. unfold IsEmpty. rewrite Hz. simpl.
    repeat split; [done|]. rewrite bytes_empty by lia. set_solver.
  - destruct (Z.eq_dec (Size r) 0) as [Hz|Hnz].
    + exists acc. simpl. unfold IsEmpty. rewrite Hz. simpl.
      repeat split; [done|]. rewrite bytes_empty by lia. set_solver.
    + assert (solid r) as Hs by (destruct Hr as (?&?&?); unfold solid; lia).
      cbn [Intersection_loop].
      assert (IsEmpty r = false) as -> by (unfold IsEmpty; apply Z.leb_gt; destruct Hs as (?&?&?); lia).
      destruct (Find_step rs r Hok Hs)
        as (curr & next & present & -> & _ & Hc & Hn & Hlt & Hb & Hp & Hnp).
      assert (valid curr) as Hcv by (destruct Hc as (?&?&?); unfold valid; lia).
      assert (Z.to_nat (Size next) <= fuel)%nat as Hfuel' by lia.
      destruct present.
      * destruct (Insert_ok curr acc Hcv Hacc) as (acc' & -> & Hacc' & Hcov').
        destruct (IH next acc' Hok Hn Hacc' Hfuel') as (res & -> & Hres & Hcov).
        exists res. repeat split; [done|]. rewrite Hcov, Hcov', Hb.
        destruct (Hp eq_refl) as [Hsub _]. set_solver.
      * destruct (IH next acc Hok Hn Hacc Hfuel') as (res & -> & Hres & Hcov).
        exists res. repeat split; [done|]. rewrite Hcov, Hb.
        specialize (Hnp eq_refl). set_solver.
Qed.

Lemma Intersection_ok rs r fuel :
  ok 0 rs -> valid r -> (Z.to_nat (Size r) <= fuel)%nat ->
  exists res, Ranges.Intersection fuel rs r = Some (Some res) /\
    ok 0 res /\ covered res = bytes r ∩ covered rs.
Proof.
  intros Hok Hr Hfuel. unfold Ranges.Intersection.
  destruct rs as [|x rs].
  - exists []. simpl. repeat split. rewrite covered_nil. set_solver.
  - cbn [length Nat.eqb].
    destruct (Intersection_loop_ok (x :: rs) fuel r [] Hok Hr I Hfuel) as (res & -> & Hres & Hcov).
    exists res. repeat split; [done|]. rewrite Hcov, covered_nil. set_solver.
Qed.

Lemma Present_ok rs r :
  ok 0 rs -> valid r ->
  exists b, Present rs r = Some b /\ (b = true <-> bytes r ⊆ covered rs).
Proof.
  intros Hok Hr. unfold Present.
  destruct (Z.eq_dec (Size r) 0) as [Hz|Hnz].
  - exists true. unfold IsEmpty. rewrite Hz. simpl. split; [done|].
    rewrite bytes_empty by lia. set_solver.
  - assert (solid r) as Hs by (destruct Hr as (?&?&?); unfold solid; lia).
    assert (IsEmpty r = false) as -> by (unfold IsEmpty; apply Z.leb_gt; destruct Hs as (?&?&?); lia).
    destruct (Find_step rs r Hok Hs)
      as (curr & next & present & -> & Hpos & Hc & Hn & Hlt & Hb & Hp & Hnp).
    simpl.
    assert (Pos r ∈ bytes curr) as Hin
      by (apply elem_of_bytes; destruct Hc as (?&?&?); lia).
    destruct present; simpl.
    + destruct (Hp eq_refl) as [Hsub Hnext].
      unfold IsEmpty. destruct (Z.leb_spec (Size next) 0) as [Hle|Hgt].
      * exists true. split; [done|]. split; [|done]. intros _.
        rewrite Hb, (bytes_empty next) by done. set_solver.
      * exists false. split; [done|]. split; [done|]. intros Hall.
        exfalso. apply (Hnext Hgt). apply Hall. rewrite Hb.
        apply elem_of_union_r. apply elem_of_bytes. lia.
    + exists false. split; [done|]. split; [done|]. intros Hall.
      exfalso. apply (Hnp eq_refl (Pos r)); [done|]. apply Hall. rewrite Hb. set_solver.
Qed.

(** Claim C6.  On a range set that satisfies the invariant, [Present(r)]
    holds exactly when the sizes of the members of [Intersection(r)] add
    up to [r.Size]; the loop of [Intersection] ends within [r.Size]
    rounds. *)
Theorem Present_iff_Intersection (rs : list Range.t) (r : Range.t) (fuel : nat) :
  invariant rs -> Forall valid rs -> valid r -> (Z.to_nat (Size r) <= fuel)%nat ->
  exists b res, Present rs r = Some b /\
    Ranges.Intersection fuel rs r = Some (Some res) /\
    (b = true <-> Ranges.Size res = Size r).
Proof.
  intros Hinv Hv Hr Hfuel. pose proof (invariant_ok rs Hinv Hv) as Hok.
  destruct (Present_ok rs r Hok Hr) as (b & HP & Hb).
  destruct (Intersection_ok rs r fuel Hok Hr Hfuel) as (res & HI & Hres & Hcov).
  exists b, res. split; [done|]. split; [done|].
  rewrite Hb, (Size_covered res Hres), Hcov.
  rewrite <- (size_bytes r) by (by destruct Hr as (?&?&?)).
  split.
  - intros Hsub. f_equal. f_equal. set_solver.
  - intros Hsz. apply Nat2Z.inj in Hsz.
    assert (bytes r ∩ covered rs = bytes r) as Heq.
    { apply set_subseteq_size_eq; [set_solver|lia]. }
    set_solver.
Qed.

(** A range that intersects a member without starting inside it: on
    [[(10,10)]], [Find((5,10))] returns the gap [(5,5)] with
    [present = false], not the intersection [(10,5)]. *)
Lemma Find_intersecting_not_present :
  let rs := [mk 10 10] in
  let r := mk 5 10 in
  let m := mk 10 10 in
  invariant rs /\ m ∈ rs /\
  IsEmpty (Range.Intersection r m) = false /\
  Find rs r = Some (mk 5 5, mk 10 5, false) /\
  mk 5 5 <> Range.Intersection r m.
Proof.
  repeat split.
  - intros [|i] a Hi; simpl in Hi; [|done]. inversion Hi; subst. simpl. lia.
  - intros [|i] a b Hi Hj; simpl in Hj; done.
  - set_solver.
  - vm_compute. discriminate.
Qed.

(** Claim C3, amended.  On a range set that satisfies the invariant,
    [Find(r)] returns [(curr, next, present)] with [curr.Pos = r.Pos].  If
    [r] is not empty and [r.Pos] lies inside a member, [curr] is the
    intersection of that member with [r] and [present] is true.
    Otherwise [present] is false and [curr] is the gap from [r.Pos] to
    the first member that starts inside [r], or all of [r] when there is
    none.  [next] is the rest of [r] beyond [curr], and is empty when [r]
    is used up.  On [[(0,10),(20,10)]], [Find((5,20))] returns
    [((5,5), (10,15), true)]. *)
Theorem Find_spec (rs : list Range.t) (r : Range.t) :
  invariant rs -> Forall valid rs -> valid r ->
  exists curr next present, Find rs r = Some (curr, next, present) /\
    Pos curr = Pos r /\
    (IsEmpty r = false ->
     forall m, m ∈ rs -> Pos m <= Pos r < End m ->
       curr = Range.Intersection m r /\ present = true) /\
    (IsEmpty r = true \/ (forall m, m ∈ rs -> ~ (Pos m <= Pos r < End m)) ->
     present = false /\
     ((exists d, d ∈ rs /\ Pos r < Pos d < End r /\
         (forall m, m ∈ rs -> Pos r < Pos m -> Pos d <= Pos m) /\
         curr = mk (Pos r) (Pos d - Pos r)) \/
      ((forall m, m ∈ rs -> ~ (Pos r < Pos m < End r)) /\ curr = r))) /\
    (if decide (End curr < End r)
     then next = mk (End curr) (End r - End curr)
     else IsEmpty next = true) /\
    Find [mk 0 10; mk 20 10] (mk 5 20) = Some (mk 5 5, mk 10 15, true).
Proof.
  intros Hinv Hv Hr. pose proof (invariant_ok rs Hinv Hv) as Hok.
  pose proof (ok_solid 0 _ ltac:(lia) Hok) as Hs. rewrite Forall_forall in Hs.
  pose proof (End_valid r Hr) as HEr. pose proof Hr as (Hr1 & Hr2 & Hr3).
  assert (forall m, m ∈ rs -> End m = Pos m + Size m) as HEm
    by (intros m Hm; apply End_solid; auto).
  int64_bounds.
  destruct (Z.eq_dec (Size r) 0) as [Hz|Hnz].
  { exists r, zero, false. unfold Find, IsEmpty. rewrite Hz. simpl.
    split; [done|]. split; [done|]. split; [done|]. split.
    - intros _. split; [done|]. right. split; [|done].
      intros m Hm. rewrite HEr. lia.
    - split; [|reflexivity]. destruct (decide (End r < End r)); [lia|done]. }
  assert (solid r) as Hsr by (unfold solid; lia).
  assert (IsEmpty r = false) as Hne by (unfold IsEmpty; apply Z.leb_gt; lia).
  rewrite Hne.
  destruct (Find_classify rs r Hok Hsr)
    as [(m & Hm & Hin & ->)|[Hnone [(d & Hd & Hdr & Hmin & ->)|[Hno ->]]]].
  - destruct (Hs m Hm) as (Hm1 & Hm2 & Hm3).
    eexists _, _, _. split; [reflexivity|]. simpl. split; [done|].
    split; [|split; [|split; [|reflexivity]]].
    + intros _ m' Hm' Hin'. rewrite (HEm m' Hm') in Hin'.
      assert (m' = m) as -> by (eapply (ok_contains_unique 0 rs); eauto).
      split; [|done].
      destruct (Z.eq_dec (Pos m) (Pos r)) as [Heq|Hneq].
      * rewrite Intersection_found by (done || lia).
        destruct (Z.ltb_spec (Pos m) (Pos r + Size r)); [|lia]. range_eq.
      * rewrite Intersection_prev by (done || lia).
        destruct (Z.ltb_spec (Pos r) (Pos m + Size m)); [|lia]. range_eq.
    + intros [?|Hnone]; [done|]. exfalso. apply (Hnone m Hm). rewrite HEm; done.
    + rewrite HEr. rewrite End_valid by (unfold valid; simpl; lia). simpl.
      destruct (decide _) as [Hlt|Hge]; [range_eq|].
      unfold IsEmpty. simpl. apply Z.leb_le. lia.
  - eexists _, _, _. split; [reflexivity|]. simpl. split; [done|].
    split; [|split; [|split; [|reflexivity]]].
    + intros _ m Hm Hin. exfalso. apply (Hnone m Hm). rewrite <- HEm; done.
    + intros _. split; [done|]. left. exists d. rewrite HEr. done.
    + rewrite HEr. rewrite End_valid by (unfold valid; simpl; lia). simpl.
      destruct (decide _) as [Hlt|Hge]; [range_eq|lia].
  - exists r, zero, false. split; [reflexivity|]. split; [done|].
    split; [|split; [|split; [|reflexivity]]].
    + intros _ m Hm Hin. exfalso. apply (Hnone m Hm). rewrite <- HEm; done.
    + intros _. split; [done|]. right. rewrite HEr. done.
    + destruct (decide _) as [Hlt|Hge]; [lia|done].
Qed.

Lemma Find_spec_witness :
  exists curr next present,
    Find [mk 0 10; mk 20 10] (mk 5 20) = Some (curr, next, present) /\
    curr = mk 5 5 /\ next = mk 10 15 /\ present = true.
Proof.
  destruct (Find_spec [mk 0 10; mk 20 10] (mk 5 20)) as (c & n & p & HF & _).
  - split.
    + intros i a Hi. destruct i as [|[|i]]; simpl in Hi; inversion Hi; subst; simpl; lia.
    + intros i a b Hi Hj.
      destruct i as [|[|i]]; simpl in Hi, Hj; inversion Hi; inversion Hj; subst.
      vm_compute. reflexivity.
  - repeat constructor; vm_compute; congruence.
  - repeat constructor; vm_compute; congruence.
  - exists c, n, p. split; [exact HF|].
    vm_compute in HF. inversion HF. done.
Defined.

Lemma two_members_invariant : invariant [mk 0 10; mk 20 10].
Proof.
  split.
  - intros i a Hi. destruct i as [|[|i]]; simpl in Hi; inversion Hi; subst; simpl; lia.
  - intros i a b Hi Hj.
    destruct i as [|[|i]]; simpl in Hi, Hj; inversion Hi; inversion Hj; subst.
    vm_compute. reflexivity.
Defined.

Lemma two_members_valid : Forall valid [mk 0 10; mk 20 10].
Proof. repeat constructor; vm_compute; congruence. Defined.

Lemma InsertAll_invariant_witness :
  exists rs, InsertAll [mk 0 10; mk 20 10; mk 10 10] = Some rs /\
    invariant rs /\
    (forall i j a b, rs !! i = Some a -> rs !! j = Some b -> (i < j)%nat -> Pos a < Pos b) /\
    Ranges.Size rs = Z.of_nat (size (covered [mk 0 10; mk 20 10; mk 10 10])).
Proof.
  apply (InsertAll_invariant [mk 0 10; mk 20 10; mk 10 10]).
  repeat constructor; vm_compute; congruence.
Defined.

Lemma Insert_idempotent_witness :
  exists rs', Insert (mk 5 20) [mk 0 10; mk 20 10] = Some rs' /\
    Insert (mk 5 20) rs' = Some rs'.
Proof.
  apply (Insert_idempotent [mk 0 10; mk 20 10] (mk 5 20)).
  - exact two_members_invariant.
  - exact two_members_valid.
  - repeat constructor; vm_compute; congruence.
Defined.

Lemma Present_iff_Intersection_witness :
  exists b res, Present [mk 0 10; mk 20 10] (mk 5 20) = Some b /\
    Ranges.Intersection 20 [mk 0 10; mk 20 10] (mk 5 20) = Some (Some res) /\
    (b = true <-> Ranges.Size res = 20).
Proof.
  apply (Present_iff_Intersection [mk 0 10; mk 20 10] (mk 5 20) 20).
  - exact two_members_invariant.
  - exact two_members_valid.
  - repeat constructor; vm_compute; congruence.
  - vm_compute. lia.
Defined.

Example InsertAll_example :
  InsertAll [mk 0 10; mk 20 10; mk 10 10] = Some [mk 0 30].
Proof. vm_compute. reflexivity. Qed.

End RangesFacts.

Module VFSFacts.

Import VFS VFSSpec.

Create HintDb keeps_db.
Create HintDb steady_db.

Section Keeps.
Context {X : Type} `{!External X} `{!Variants X}.

Variable Inv : World X -> Prop.
Variable N : panic -> Prop.
Hypothesis Inv_file : forall f w, Inv w -> Inv (set_file f w).
Hypothesis Inv_ext : forall x w, Inv w -> Inv (set_ext x w).
Hypothesis Inv_opens : forall m w, Inv w -> Inv (set_cache_opens m w).
Hypothesis Inv_fh : forall q g h w,
  handles w !! q = Some h -> (closed h = true -> closed (g h) = true) ->
  Inv w -> Inv (set_handles (<[q := g h]> (handles w)) w).
Hypothesis Inv_alloc : forall q h w,
  handles w !! q = None -> Inv w -> Inv (set_handles (<[q := h]> (handles w)) w).
Hypothesis Inv_lift : forall (w w' : World X), Inv w -> Inv w'.
Hypothesis N_BadHandle : forall q, N (BadHandle q).

Lemma keeps_ret {A} (a : A) : keeps Inv N (mret a).
Proof. intros w Hw. exact Hw. Qed.

Lemma keeps_bind {A B} (m : M X A) (k : A -> M X B) :
  keeps Inv N m -> (forall a, keeps Inv N (k a)) -> keeps Inv N (m ≫= k).
Proof.
  intros Hm Hk w Hw. unfold mbind, M_bind. specialize (Hm w Hw).
  destruct (m w) as [a w'| |why]; [|done|done]. by apply Hk.
Qed.

Lemma keeps_get_world : keeps Inv N get_world.
Proof. intros w Hw. exact Hw. Qed.
Lemma keeps_get_file : keeps Inv N get_file.
Proof. intros w Hw. exact Hw. Qed.
Lemma keeps_mod_file g : keeps Inv N (mod_file g).
Proof. intros w Hw. by apply Inv_file. Qed.
Lemma keeps_get_fh p : keeps Inv N (get_fh p).
Proof. intros w Hw. unfold get_fh. destruct (handles w !! p); [done|apply N_BadHandle]. Qed.
Lemma keeps_mod_fh p g :
  (forall h, closed h = true -> closed (g h) = true) -> keeps Inv N (mod_fh p g).
Proof.
  intros Hg w Hw. unfold mod_fh. destruct (handles w !! p) eqn:E; [|apply N_BadHandle].
  apply Inv_fh; auto.
Qed.
Lemma keeps_call {A} (op : X -> A * X) : keeps Inv N (call op).
Proof. intros w Hw. unfold call. destruct (op (ext w)). by apply Inv_ext. Qed.
Lemma keeps_call_ (op : X -> X) : keeps Inv N (call_ op).
Proof. intros w Hw. by apply Inv_ext. Qed.
Lemma keeps_lift {A} (op : World X -> A * World X) : keeps Inv N (lift op).
Proof. intros w Hw. unfold lift. destruct (op w). by apply (Inv_lift w). Qed.
Lemma keeps_muRW_Lock : keeps Inv N muRW_Lock.
Proof. intros w Hw. unfold muRW_Lock. destruct (muRW (file w)); [done|]. by apply Inv_file. Qed.
Lemma keeps_muRW_Unlock : keeps Inv N muRW_Unlock.
Proof. apply keeps_mod_file. Qed.
Lemma keeps_cache_Open name : keeps Inv N (cache_Open name).
Proof. intros w Hw. by apply Inv_opens. Qed.
Lemma keeps_cache_Close name : keeps Inv N (cache_Close name).
Proof. intros w Hw. by apply Inv_opens. Qed.
Lemma keeps_cache_Opens name : keeps Inv N (cache_Opens name).
Proof. intros w Hw. exact Hw. Qed.

Ltac keeps_step :=
  match goal with
  | |- keeps _ _ (mbind _ _) => apply keeps_bind; [|intros]
  | |- keeps _ _ (mret _) => apply keeps_ret
  | |- keeps _ _ (if ?b then _ else _) => destruct b
  | |- keeps _ _ (match ?x with _ => _ end) => destruct x
  | |- keeps _ _ (mod_fh _ _) => apply keeps_mod_fh; intros []; simpl; auto
  | |- keeps _ _ _ =>
      first [ apply keeps_get_world | apply keeps_get_file | apply keeps_mod_file
            | apply keeps_get_fh | apply keeps_call | apply keeps_call_
            | apply keeps_lift | apply keeps_muRW_Lock | apply keeps_muRW_Unlock
            | apply keeps_cache_Open | apply keeps_cache_Close | apply keeps_cache_Opens
            | solve [auto with keeps_db] ]
  end.
Ltac keeps_auto := repeat keeps_step.

Lemma keeps_renameCall_body newPath : keeps Inv N (renameCall_body newPath).
Proof. unfold renameCall_body. keeps_auto. Qed.
Hint Resolve keeps_renameCall_body : keeps_db.

Lemma keeps_renameCall fn : keeps Inv N (renameCall fn).
Proof. induction fn; simpl; keeps_auto. Qed.
Hint Resolve keeps_renameCall : keeps_db.

Lemma keeps_applyPendingRename : keeps Inv N applyPendingRename.
Proof. unfold applyPendingRename. keeps_auto. Qed.
Hint Resolve keeps_applyPendingRename : keeps_db.

Lemma keeps_addWriter h : keeps Inv N (addWriter h).
Proof. unfold addWriter. keeps_auto. Qed.
Hint Resolve keeps_addWriter : keeps_db.

Lemma keeps_delWriter h b : keeps Inv N (delWriter h b).
Proof. unfold delWriter. keeps_auto. Qed.
Hint Resolve keeps_delWriter : keeps_db.

Lemma keeps_addRWOpen : keeps Inv N addRWOpen.
Proof. unfold addRWOpen. keeps_auto. Qed.
Lemma keeps_delRWOpen : keeps Inv N delRWOpen.
Proof. unfold delRWOpen. keeps_auto. Qed.
Lemma keeps_rwOpens : keeps Inv N rwOpens.
Proof. unfold rwOpens. keeps_auto. Qed.
Lemma keeps_finishWriterClose : keeps Inv N finishWriterClose.
Proof. unfold finishWriterClose. keeps_auto. Qed.
Lemma keeps_setSize n : keeps Inv N (setSize n).
Proof. unfold setSize. keeps_auto. Qed.
Lemma keeps__applyPendingModTime : keeps Inv N _applyPendingModTime.
Proof. unfold _applyPendingModTime. keeps_auto. Qed.
Hint Resolve keeps__applyPendingModTime : keeps_db.
Lemma keeps_setObject ob : keeps Inv N (setObject ob).
Proof. unfold setObject. keeps_auto. Qed.
Lemma keeps_getObject : keeps Inv N getObject.
Proof. unfold getObject. keeps_auto. Qed.
Lemma keeps_exists_ : keeps Inv N exists_.
Proof. unfold exists_. keeps_auto. Qed.
Hint Resolve keeps_addRWOpen keeps_delRWOpen keeps_rwOpens keeps_finishWriterClose
  keeps_setSize keeps_setObject keeps_getObject keeps_exists_ : keeps_db.

Lemma keeps_openPending p truncate : keeps Inv N (openPending p truncate).
Proof. unfold openPending. keeps_auto. Qed.
Hint Resolve keeps_openPending : keeps_db.

Lemma keeps_alloc_fh h : keeps Inv N (alloc_fh h).
Proof.
  intros w Hw. unfold alloc_fh. apply Inv_alloc; [|done].
  apply not_elem_of_dom. apply is_fresh.
Qed.
Hint Resolve keeps_alloc_fh : keeps_db.

Lemma keeps_newRWFileHandle flags : keeps Inv N (newRWFileHandle flags).
Proof. unfold newRWFileHandle. keeps_auto. Qed.
Hint Resolve keeps_newRWFileHandle : keeps_db.

Lemma keeps_flushWrites p closeFile : keeps Inv N (flushWrites p closeFile).
Proof. unfold flushWrites. keeps_auto. Qed.
Hint Resolve keeps_flushWrites : keeps_db.

Lemma keeps_close p : keeps Inv N (close p).
Proof. unfold close. keeps_auto. Qed.
Hint Resolve keeps_close : keeps_db.

Lemma keeps_RWFileHandle_Truncate p size : keeps Inv N (RWFileHandle_Truncate p size).
Proof. unfold RWFileHandle_Truncate. keeps_auto. Qed.
Hint Resolve keeps_RWFileHandle_Truncate : keeps_db.

Lemma keeps_waitForValidObject_loop n : keeps Inv N (waitForValidObject_loop n).
Proof. induction n; simpl; keeps_auto. Qed.
Hint Resolve keeps_waitForValidObject_loop : keeps_db.

Lemma keeps_openRead : keeps Inv N openRead.
Proof. unfold openRead, waitForValidObject. keeps_auto. Qed.
Lemma keeps_openWrite flags : keeps Inv N (openWrite flags).
Proof. unfold openWrite. keeps_auto. Qed.
Lemma keeps_openRW flags : keeps Inv N (openRW flags).
Proof. unfold openRW. keeps_auto. Qed.
Hint Resolve keeps_openRead keeps_openWrite keeps_openRW : keeps_db.

Lemma keeps_Open flags : keeps Inv N (Open flags).
Proof. unfold Open. keeps_auto. Qed.
Hint Resolve keeps_Open : keeps_db.

Lemma keeps_Handle_Truncate h size : keeps Inv N (Handle_Truncate h size).
Proof. unfold Handle_Truncate. keeps_auto. Qed.
Lemma keeps_Handle_Close h : keeps Inv N (Handle_Close h).
Proof. unfold Handle_Close, Close. keeps_auto. Qed.
Hint Resolve keeps_Handle_Truncate keeps_Handle_Close : keeps_db.

Lemma keeps_Truncate_writers ws size : forall err, keeps Inv N (Truncate_writers ws size err).
Proof. induction ws; intros err; simpl; keeps_auto. Qed.
Hint Resolve keeps_Truncate_writers : keeps_db.

Lemma keeps_CheckClose h err : keeps Inv N (CheckClose h err).
Proof. unfold CheckClose. keeps_auto. Qed.
Hint Resolve keeps_CheckClose : keeps_db.

End Keeps.

Section Facts.
Context {X : Type} `{!External X} `{!Variants X}.

Lemma bind_Done {A B} (m : M X A) (k : A -> M X B) w a w' :
  m w = Done a w' -> (m ≫= k) w = k a w'.
Proof. intros H. unfold mbind, M_bind. by rewrite H. Qed.

(** Claim C7.  Constructing a read/write handle with both [O_CREATE] and
    [O_EXCL] set on a file that has a remote object returns [EEXIST] and
    leaves the world as it was: the cache's open count of the path and
    the writers of the file are unchanged. *)
Theorem newRWFileHandle_exclusive (flags : Z) (w : World X) :
  Z.land flags (Z.lor os.O_CREATE os.O_EXCL) = Z.lor os.O_CREATE os.O_EXCL ->
  o (file w) <> None ->
  newRWFileHandle flags w = Done (inl EEXIST) w.
Proof.
  intros Hflags Hex. unfold newRWFileHandle.
  rewrite (bind_Done exists_ _ w (bool_decide (o (file w) ≠ None)) w) by done.
  rewrite Hflags, Z.eqb_refl, bool_decide_eq_true_2 by done. done.
Qed.

(** Claim C1, amended.  For every flag combination with a valid access
    mode other than [O_RDONLY] together with [O_TRUNC], and for every
    cache mode, the table of the selector names a variant and [Open]
    routes to it: [Open] is the call of that variant's opener, after
    recording [O_APPEND] and before attaching a created file to its
    directory. *)
Theorem Open_routes (flags : Z) (w : World X) :
  valid_access_mode flags ->
  ~ (Z.land flags accessModeMask = os.O_RDONLY /\ has flags os.O_TRUNC = true) ->
  exists v,
    selector (Opt_CacheMode w) (in_cache w) (read_intent flags) (write_intent flags) = Some v /\
    routes_to flags w v.
Proof.
  intros Hvalid Hnot. unfold valid_access_mode in Hvalid.
  unfold routes_to, selector, in_cache, read_intent, write_intent, Open, Open_with.
  change os.O_RDONLY with 0 in *. change os.O_WRONLY with 1 in *.
  change os.O_RDWR with 2 in *.
  destruct (has flags os.O_TRUNC) eqn:Htrunc, (has flags os.O_APPEND) eqn:Happend,
    (Opt_CacheMode w) eqn:Hmode;
  destruct Hvalid as [Hm|[Hm|Hm]]; rewrite Hm in *; simpl;
    try (exfalso; apply Hnot; split; reflexivity);
    unfold mbind, M_bind, mod_file, get_world, get_file, cache_Opens, mret, M_ret, Path; simpl;
    rewrite ?Hmode; simpl;
    try match goal with
        | |- context [(?a >? 0) || ?b] => destruct ((a >? 0) || b); simpl
        end;
    eexists; (split; [reflexivity|]); reflexivity.
Qed.

Lemma never_NilObject {A} (m : M X A) :
  keeps (fun _ => True) not_nil m -> forall w, m w <> Panic NilObject.
Proof.
  intros Hm w Hw. specialize (Hm w I). rewrite Hw in Hm. by apply Hm.
Qed.

Lemma Truncate_writers_not_nil ws size err w :
  Truncate_writers ws size err w <> Panic NilObject.
Proof. apply never_NilObject. by apply keeps_Truncate_writers. Qed.

Lemma Truncate_reopen_not_nil size flags w :
  (r ← Open flags;
   match r with
   | inl err => mret (Some err)
   | inr fh =>
       err ← (if negb (size =? 0) then Handle_Truncate fh size else mret None);
       CheckClose fh err
   end) w <> Panic NilObject.
Proof.
  apply never_NilObject.
  apply keeps_bind; [by apply keeps_Open|].
  intros [err|fh]; [by apply keeps_ret|].
  apply keeps_bind; [|intros; by apply keeps_CheckClose].
  destruct (negb (size =? 0)); [by apply keeps_Handle_Truncate|by apply keeps_ret].
Qed.

(** Claim C9.  [File.Truncate] dereferences a nil object exactly when the
    file has no writers and no remote object; with a writer or an object
    the size comparison never does. *)
Theorem File_Truncate_nil_object (size : Z) (w : World X) :
  File_Truncate size w = Panic NilObject <->
  writers (file w) = [] /\ o (file w) = None.
Proof.
  unfold File_Truncate.
  rewrite (bind_Done get_file _ w (file w) w eq_refl).
  destruct (writers (file w)) as [|h ws] eqn:Hws.
  - cbn [length Nat.eqb negb].
    destruct (o (file w)) as [obj|] eqn:Ho.
    + rewrite (bind_Done (mret (Object_Size obj)) _ w (Object_Size obj) w eq_refl).
      split; [|intros [_ ?]; done]. intros Hp. exfalso. revert Hp.
      destruct (Object_Size obj =? size); [done|].
      apply Truncate_reopen_not_nil.
    + split; [done|]. intros _. reflexivity.
  - cbn [length Nat.eqb negb].
    split; [|intros [? _]; done]. intros Hp. exfalso. revert Hp.
    apply Truncate_writers_not_nil.
Qed.

Section Steady.
Variable P : World X -> Prop.
Hypothesis P_books : forall w w', books w' = books w -> P w -> P w'.

Lemma steady_ret {A} (a : A) : steady P (mret a).
Proof. intros w _. by exists a, w. Qed.

Lemma steady_bind {A B} (m : M X A) (k : A -> M X B) :
  steady P m -> (forall a, steady P (k a)) -> steady P (m ≫= k).
Proof.
  intros Hm Hk w Hw. destruct (Hm w Hw) as (a & w1 & Hrun & Hb).
  destruct (Hk a w1 (P_books _ _ Hb Hw)) as (b & w2 & Hrun2 & Hb2).
  exists b, w2. split; [by rewrite (bind_Done _ _ _ _ _ Hrun)|congruence].
Qed.

Lemma steady_post {A} (m : M X A) w (Post : A -> World X -> Prop) :
  steady P m -> P w ->
  (forall a w', books w' = books w -> Post a w') ->
  exists a w', m w = Done a w' /\ Post a w'.
Proof.
  intros Hm Hw HPost. destruct (Hm w Hw) as (a & w' & Hrun & Hb).
  exists a, w'. split; [done|]. by apply HPost.
Qed.

Lemma steady_get_world : steady P get_world.
Proof. intros w _. by exists w, w. Qed.
Lemma steady_get_file : steady P get_file.
Proof. intros w _. by exists (file w), w. Qed.
Lemma steady_call {A} (op : X -> A * X) : steady P (call op).
Proof. intros w _. unfold call. destruct (op (ext w)) as [a x]. by exists a, (set_ext x w). Qed.
Lemma steady_call_ (op : X -> X) : steady P (call_ op).
Proof. intros w _. by exists tt, (set_ext (op (ext w)) w). Qed.
Lemma steady_mod_file g :
  (forall f, file_books (g f) = file_books f) -> steady P (mod_file g).
Proof.
  intros Hg w _. exists tt, (set_file (g (file w)) w). split; [done|].
  unfold books. simpl. by rewrite Hg.
Qed.

Ltac steady_step :=
  match goal with
  | |- steady _ (mbind _ _) => apply steady_bind; [|intros]
  | |- steady _ (mret _) => apply steady_ret
  | |- steady _ (mod_file _) => apply steady_mod_file; intros []; reflexivity
  | |- steady _ _ =>
      first [ apply steady_get_world | apply steady_get_file
            | apply steady_call | apply steady_call_
            | solve [auto with steady_db] ]
  | |- steady _ (if ?b then _ else _) => destruct b
  | |- steady _ (match ?x with _ => _ end) => destruct x
  end.
Ltac steady_auto := repeat steady_step.

Lemma steady_renameCall_body newPath : steady P (renameCall_body newPath).
Proof. unfold renameCall_body. steady_auto. Qed.
Hint Resolve steady_renameCall_body : steady_db.
Lemma steady_renameCall fn : steady P (renameCall fn).
Proof. induction fn; simpl; steady_auto. Qed.
Hint Resolve steady_renameCall : steady_db.
Lemma steady_applyPendingRename : steady P applyPendingRename.
Proof. unfold applyPendingRename. steady_auto. Qed.
Hint Resolve steady_applyPendingRename : steady_db.
Lemma steady_finishWriterClose : steady P finishWriterClose.
Proof. unfold finishWriterClose. steady_auto. Qed.
Lemma steady_setSize n : steady P (setSize n).
Proof. unfold setSize. steady_auto. Qed.
Lemma steady__applyPendingModTime : steady P _applyPendingModTime.
Proof. unfold _applyPendingModTime. steady_auto. Qed.
Hint Resolve steady__applyPendingModTime : steady_db.
Lemma steady_setObject ob : steady P (setObject ob).
Proof. unfold setObject. steady_auto. Qed.
Lemma steady_getObject : steady P getObject.
Proof. unfold getObject. steady_auto. Qed.
Hint Resolve steady_finishWriterClose steady_setSize steady_setObject steady_getObject : steady_db.

End Steady.

Lemma delWriter_effect h m w :
  exists b f',
    delWriter h m w = Done b (set_file f' w) /\
    readWriters f' = (if isRW h then Int64.sub (readWriters (file w)) 1
                      else readWriters (file w)) /\
    writers f' = remove_first h (writers (file w)) /\
    readWriterClosing f' = true /\
    (dPath f', leaf f', muRW f', rwOpenCount f', appendMode f')
    = (dPath (file w), leaf (file w), muRW (file w), rwOpenCount (file w),
       appendMode (file w)).
Proof.
  unfold delWriter, remove_first, applyPendingRename, mbind, M_bind, get_file, mod_file.
  simpl.
  destruct w as [f hs co ro cm x]. simpl.
  destruct (list_find (λ x0 : Handle, x0 = h) (writers f)) as [[found y]|]; simpl;
  destruct (isRW h); simpl; destruct m; simpl;
  repeat match goal with
         | |- context [if ?b then _ else _] => destruct b eqn:?; simpl
         | |- context [match ?b with Some _ => _ | None => _ end] => destruct b eqn:?; simpl
         end;
  unfold _writingInProgress in *; simpl in *;
  rewrite ?orb_true_r in *; try discriminate;
  eexists _, _; (split; [reflexivity|]); simpl; repeat split; reflexivity.
Qed.

Section Settled.
Variables (p : nat) (fh : RWFileHandle).

Lemma held_books (w w' : World X) :
  books w' = books w -> holds_fh p fh w -> holds_fh p fh w'.
Proof. unfold books, holds_fh. intros Hb Hw. congruence. Qed.

Lemma steady_get_fh : steady (X:=X) (holds_fh p fh) (get_fh p).
Proof. intros w Hw. exists fh, w. unfold get_fh. by rewrite Hw. Qed.

Lemma steady_openPending_opened truncate :
  opened fh = true -> steady (X:=X) (holds_fh p fh) (openPending p truncate).
Proof.
  intros Hop w Hw. exists None, w. unfold openPending.
  rewrite (bind_Done (get_fh p) _ w fh w) by (unfold get_fh; by rewrite Hw).
  by rewrite Hop.
Qed.

Lemma steady_openPending_settled :
  opened fh = true \/ has (flags fh) CT = false ->
  steady (X:=X) (holds_fh p fh) (if has (flags fh) (Z.lor os.O_CREATE os.O_TRUNC)
                   then openPending p false else mret None).
Proof.
  intros [Hop|Hno].
  - destruct (has _ _); [by apply steady_openPending_opened|apply steady_ret].
  - unfold CT in Hno. rewrite Hno. apply steady_ret.
Qed.

Ltac steady_step :=
  match goal with
  | |- steady _ (mbind _ _) => apply (steady_bind _ held_books); [|intros]
  | |- steady _ (mret _) => apply steady_ret
  | |- steady _ (mod_file _) => apply steady_mod_file; intros []; reflexivity
  | |- steady _ (get_fh _) => apply steady_get_fh
  | |- steady _ (if has _ _ then openPending _ _ else _) =>
      apply steady_openPending_settled; assumption
  | |- steady _ _ =>
      first [ apply steady_get_world | apply steady_get_file
            | apply steady_call | apply steady_call_
            | apply steady_finishWriterClose
            | apply steady_setSize | apply steady_getObject
            | apply steady_setObject ]; try exact held_books
  | |- steady _ (if ?b then _ else _) => destruct b
  | |- steady _ (match ?x with _ => _ end) => destruct x
  end.
Ltac steady_auto := repeat steady_step.

Lemma flushWrites_settled closeFile w :
  (holds_fh p fh) w ->
  opened fh = true \/ has (flags fh) CT = false
    \/ Z.land (flags fh) accessModeMask = os.O_RDONLY ->
  exists r w', flushWrites p closeFile w = Done r w' /\
    handles w' = handles w /\ cache_opens w' = cache_opens w /\
    (dPath (file w'), leaf (file w'), muRW (file w'), rwOpenCount (file w'))
    = (dPath (file w), leaf (file w), muRW (file w), rwOpenCount (file w)) /\
    let touched := negb (Z.land (flags fh) accessModeMask =? os.O_RDONLY)
                   && negb (closed fh && negb closeFile) in
    readWriters (file w') = (if touched then Int64.sub (readWriters (file w)) 1
                             else readWriters (file w)) /\
    writers (file w') = (if touched then remove_first (RWHandle p) (writers (file w))
                         else writers (file w)).
Proof.
  intros Hw Hsettled. unfold flushWrites.
  rewrite (bind_Done (get_fh p) _ w fh w) by (unfold get_fh; by rewrite Hw).
  destruct (closed fh && negb closeFile) eqn:Hskip.
  { exists None, w. rewrite andb_false_r. done. }
  rewrite andb_true_r.
  destruct (Z.eqb_spec (Z.land (flags fh) accessModeMask) os.O_RDONLY) as [Hro|Hrw];
    cbn [negb].
  - destruct (opened fh) eqn:Hop; cbn [negb andb]; [|by exists None, w].
    rewrite (bind_Done (mret false) _ w false w eq_refl).
    eapply steady_post with (P := holds_fh (X:=X) p fh); [|exact Hw|].
    + assert (opened fh = true \/ has (flags fh) CT = false) as Hs by auto.
      steady_auto.
    + intros a w' Hb. unfold books, file_books in Hb. simplify_eq.
      repeat split; congruence.
  - assert (opened fh = true \/ has (flags fh) CT = false) as Hs by tauto.
    rewrite andb_false_r.
    destruct (delWriter_effect (RWHandle p) (RWFileHandle_modified fh) w)
      as (b & f' & Hrun & Hrw' & Hws' & _ & Hsame).
    rewrite (bind_Done _ _ _ _ _ Hrun).
    eapply steady_post with (P := holds_fh (X:=X) p fh); [|exact Hw|].
    + steady_auto.
    + intros a w' Hb. unfold books, file_books in Hb. simpl in Hb.
      simpl in Hrw'. simplify_eq. repeat split; congruence.
Qed.

End Settled.

Lemma close_closed p fh w :
  handles w !! p = Some fh -> closed fh = true -> muRW (file w) = false ->
  close p w = Done (Some ECLOSED) w.
Proof.
  intros Hp Hc Hmu. unfold close, mbind, M_bind, muRW_Lock, get_fh, muRW_Unlock, mod_file.
  rewrite Hmu. simpl. rewrite Hp, Hc. simpl.
  destruct w as [f hs co ro cm x]; destruct f; simpl in *. by subst.
Qed.

Lemma close_settled p fh w :
  handles w !! p = Some fh -> closed fh = false -> settled fh ->
  muRW (file w) = false ->
  exists r w', close p w = Done r w' /\
    handles w' = <[p := set_closed true fh]> (handles w) /\
    cache_opens w' =
      <[Path (file w) := opens_of (cache_opens w) (Path (file w)) - 1]> (cache_opens w) /\
    (dPath (file w'), leaf (file w'), muRW (file w'))
    = (dPath (file w), leaf (file w), false) /\
    let writer := negb (Z.land (flags fh) accessModeMask =? os.O_RDONLY) in
    readWriters (file w') = (if writer then Int64.sub (readWriters (file w)) 1
                             else readWriters (file w)) /\
    writers (file w') = (if writer then remove_first (RWHandle p) (writers (file w))
                         else writers (file w)).
Proof.
  intros Hp Hc Hs Hmu. unfold close.
  rewrite (bind_Done muRW_Lock _ w tt (set_file (set_muRW true (file w)) w))
    by (unfold muRW_Lock; by rewrite Hmu).
  set (w1 := set_file (set_muRW true (file w)) w).
  rewrite (bind_Done (get_fh p) _ w1 fh w1) by (unfold get_fh; simpl; by rewrite Hp).
  rewrite Hc.
  set (fh' := set_closed true fh).
  set (w2 := set_handles (<[p := fh']> (handles w1)) w1).
  assert (mod_fh p (set_closed true) w1 = Done tt w2) as Hmod
    by (unfold mod_fh; simpl; by rewrite Hp).
  destruct (flushWrites_settled p fh' true w2) as (r & w3 & Hrun & Hh & Hco & Hf & Hrw & Hws).
  { unfold holds_fh. simpl. apply lookup_insert_eq. }
  { exact Hs. }
  simpl in Hh, Hco, Hf, Hrw, Hws. rewrite ?andb_false_r, ?andb_true_r in Hrw, Hws.
  simplify_eq.
  unfold mbind, M_bind. rewrite Hmod. cbn beta iota. rewrite Hrun. cbn beta iota.
  unfold get_fh. rewrite Hh, lookup_insert_eq.
  unfold muRW_Unlock, mod_file, delRWOpen, mod_file, get_file, cache_Close, mret, M_ret.
  destruct (opened fh'); simpl; exists r; eexists; (split; [reflexivity|]); simpl;
    rewrite ?Hh, ?Hco; unfold Path; simpl; rewrite ?H, ?H2; repeat split; try done.
Qed.

(** [close] never returns on a writer that was created with
    [O_CREATE] or [O_TRUNC] and is not opened yet: the writeback step
    runs the pending open under [muRW], which [openPending] locks
    again. *)
Lemma close_blocks p fh w :
  handles w !! p = Some fh -> closed fh = false -> opened fh = false ->
  Z.land (flags fh) accessModeMask <> os.O_RDONLY ->
  has (flags fh) CT = true ->
  close p w = Blocked.
Proof.
  intros Hp Hc Hop Hrw Hct. unfold close.
  unfold mbind at 1, M_bind at 1. unfold muRW_Lock.
  destruct (muRW (file w)) eqn:Hmu; [done|].
  set (w1 := set_file (set_muRW true (file w)) w).
  rewrite (bind_Done (get_fh p) _ w1 fh w1) by (unfold get_fh; simpl; by rewrite Hp).
  rewrite Hc.
  set (fh' := set_closed true fh).
  set (w2 := set_handles (<[p := fh']> (handles w1)) w1).
  assert (mod_fh p (set_closed true) w1 = Done tt w2) as Hmod
    by (unfold mod_fh; simpl; by rewrite Hp).
  assert (flushWrites p true w2 = Blocked) as Hflush.
  { unfold flushWrites.
    rewrite (bind_Done (get_fh p) _ w2 fh' w2)
      by (unfold get_fh; simpl; by rewrite lookup_insert_eq).
    simpl. rewrite Hop. simpl.
    destruct (Z.eqb_spec (Z.land (flags fh) accessModeMask) os.O_RDONLY); [done|]. simpl.
    destruct (delWriter_effect (RWHandle p) (RWFileHandle_modified fh') w2)
      as (b & f' & Hrun & _ & _ & _ & Hsame).
    rewrite (bind_Done _ _ _ _ _ Hrun).
    unfold CT in Hct. rewrite Hct.
    unfold mbind at 1, M_bind at 1. unfold mbind at 1, M_bind at 1.
    unfold openPending.
    rewrite (bind_Done (get_fh p) _ (set_file f' w2) fh' (set_file f' w2))
      by (unfold get_fh; simpl; by rewrite lookup_insert_eq).
    simpl. rewrite Hop. unfold mbind at 1, M_bind at 1. unfold muRW_Lock. simpl.
    simpl in Hsame. assert (muRW f' = true) as -> by congruence. done. }
  unfold mbind, M_bind. rewrite Hmod. cbn beta iota. by rewrite Hflush.
Qed.

Lemma keeps_closed_flushWrites p q closeFile :
  keeps (is_closed p) (fun _ => True) (flushWrites q closeFile).
Proof.
  apply keeps_flushWrites; try done.
  - intros q' g h w Hq Hg (h' & Hh' & Hc'). unfold is_closed. simpl.
    destruct (decide (q' = p)) as [->|Hne].
    + rewrite lookup_insert_eq. simplify_eq. eauto.
    + rewrite lookup_insert_ne by done. eauto.
Qed.

Lemma close_closes p fh w r w' :
  handles w !! p = Some fh -> close p w = Done r w' -> is_closed p w'.
Proof.
  intros Hp Hrun. unfold close in Hrun.
  unfold mbind at 1, M_bind at 1 in Hrun. unfold muRW_Lock in Hrun.
  destruct (muRW (file w)) eqn:Hmu; [done|].
  set (w1 := set_file (set_muRW true (file w)) w) in *.
  rewrite (bind_Done (get_fh p) _ w1 fh w1) in Hrun
    by (unfold get_fh; simpl; by rewrite Hp).
  destruct (closed fh) eqn:Hc.
  - unfold mbind, M_bind, mret, M_ret, muRW_Unlock, mod_file in Hrun. simpl in Hrun.
    simplify_eq. exists fh. done.
  - set (w2 := set_handles (<[p := set_closed true fh]> (handles w1)) w1).
    assert (mod_fh p (set_closed true) w1 = Done tt w2) as Hmod
      by (unfold mod_fh; simpl; by rewrite Hp).
    assert (is_closed p w2) as Hw2.
    { exists (set_closed true fh). simpl. by rewrite lookup_insert_eq. }
    unfold mbind at 1, M_bind at 1 in Hrun.
    unfold mbind at 1, M_bind at 1 in Hrun. rewrite Hmod in Hrun. cbn beta iota in Hrun.
    unfold mbind at 1, M_bind at 1 in Hrun.
    pose proof (keeps_closed_flushWrites p p true w2 Hw2) as Hk.
    destruct (flushWrites p true w2) as [err w3| |]; [|done|done].
    cbn beta iota in Hrun.
    unfold mbind, M_bind, get_fh in Hrun.
    destruct Hk as (h3 & Hh3 & Hc3). rewrite Hh3 in Hrun.
    unfold muRW_Unlock, mod_file, delRWOpen, mod_file, get_file, cache_Close, mret, M_ret in Hrun.
    destruct (opened h3); simpl in Hrun; simplify_eq; exists h3; done.
Qed.

(** Claim C8, amended.  [Release] on a handle that is closed already
    returns nil and changes nothing.  On an open handle it is [close]:
    it returns what [close] returns, nil or the error, and once it has
    returned a further [Release] returns nil and changes nothing. *)
Theorem Release_returns_close_result (p : nat) (fh : RWFileHandle) (w : World X) :
  handles w !! p = Some fh ->
  (closed fh = true -> Release p w = Done None w) /\
  (closed fh = false ->
     Release p w = close p w /\
     forall r w', Release p w = Done r w' -> Release p w' = Done None w').
Proof.
  intros Hp.
  assert (forall w0 h, handles w0 !! p = Some h -> closed h = true ->
            Release p w0 = Done None w0) as Hclosed.
  { intros w0 h Hh Hc. unfold Release.
    rewrite (bind_Done (get_fh p) _ w0 h w0) by (unfold get_fh; by rewrite Hh).
    by rewrite Hc. }
  split; [by apply Hclosed|].
  intros Hc.
  assert (Release p w = close p w) as Heq.
  { unfold Release.
    rewrite (bind_Done (get_fh p) _ w fh w) by (unfold get_fh; by rewrite Hp).
    rewrite Hc. unfold mbind, M_bind. by destruct (close p w). }
  split; [done|]. intros r w' Hrun. rewrite Heq in Hrun.
  destruct (close_closes p fh w r w' Hp Hrun) as (h & Hh & Hch).
  by apply (Hclosed w' h).
Qed.

Lemma remove_first_absent h ws : h ∉ ws -> remove_first h ws = ws.
Proof.
  intros Hh. unfold remove_first.
  destruct (list_find (λ x, x = h) ws) as [[i y]|] eqn:Hf; [|done].
  apply list_find_Some in Hf as (Hi & -> & _).
  exfalso. apply Hh. by eapply list_elem_of_lookup_2.
Qed.

Lemma remove_first_present h ws :
  h ∈ ws -> exists l1 l2, ws = l1 ++ h :: l2 /\ remove_first h ws = l1 ++ l2.
Proof.
  intros Hh. unfold remove_first.
  destruct (list_find (λ x, x = h) ws) as [[i y]|] eqn:Hf.
  - apply list_find_Some in Hf as (Hi & -> & _).
    exists (take i ws), (drop (S i) ws). split.
    + by rewrite take_drop_middle.
    + by rewrite Nat.add_1_r.
  - apply list_find_None in Hf. rewrite Forall_forall in Hf. by destruct (Hf h Hh).
Qed.

Lemma count_RW_app l1 l2 : count_RW (l1 ++ l2) = count_RW l1 + count_RW l2.
Proof. unfold count_RW. rewrite List.filter_app, length_app. lia. Qed.

Lemma Flush_effect p fh w :
  handles w !! p = Some fh -> opened fh = true -> closed fh = false ->
  writeCalled fh = true -> Z.land (flags fh) accessModeMask <> os.O_RDONLY ->
  muRW (file w) = false ->
  exists r w', Flush p w = Done r w' /\
    handles w' = handles w /\ cache_opens w' = cache_opens w /\
    (dPath (file w'), leaf (file w'), muRW (file w'))
    = (dPath (file w), leaf (file w), false) /\
    readWriters (file w') = Int64.sub (readWriters (file w)) 1 /\
    writers (file w') = remove_first (RWHandle p) (writers (file w)).
Proof.
  intros Hp Hop Hc Hwc Hrw Hmu. unfold Flush.
  rewrite (bind_Done (get_fh p) _ w fh w) by (unfold get_fh; by rewrite Hp).
  rewrite Hop, Hc, Hwc. cbn [negb].
  rewrite (bind_Done muRW_Lock _ w tt (set_file (set_muRW true (file w)) w))
    by (unfold muRW_Lock; by rewrite Hmu).
  set (w1 := set_file (set_muRW true (file w)) w).
  destruct (flushWrites_settled p fh false w1) as (r & w2 & Hrun & Hh & Hco & Hf & Hr & Hws).
  { exact Hp. }
  { by left. }
  rewrite (bind_Done _ _ _ _ _ Hrun).
  exists r, (set_file (set_muRW false (file w2)) w2). split; [done|].
  simpl in *. rewrite Hc in Hr, Hws.
  destruct (Z.eqb_spec (Z.land (flags fh) accessModeMask) os.O_RDONLY); [done|].
  simpl in Hr, Hws. simplify_eq. repeat split; congruence.
Qed.

(** Closing twice a handle that has no open pending: the first [Close]
    returns and drops the cache's open count of the path by one, the
    second returns [ECLOSED] and changes nothing. *)
Lemma Close_twice_settled p fh w :
  handles w !! p = Some fh -> closed fh = false -> settled fh ->
  muRW (file w) = false ->
  exists r w1, Close p w = Done r w1 /\
    opens_of (cache_opens w1) (Path (file w1))
    = opens_of (cache_opens w) (Path (file w)) - 1 /\
    Close p w1 = Done (Some ECLOSED) w1.
Proof.
  intros Hp Hc Hs Hmu.
  destruct (close_settled p fh w Hp Hc Hs Hmu) as (r & w1 & Hrun & Hh & Hco & Hf & _).
  exists r, w1. split; [exact Hrun|]. injection Hf as Hd Hl Hm. split.
  - unfold Path. rewrite Hd, Hl, Hco. unfold opens_of at 1. by rewrite lookup_insert_eq.
  - apply (close_closed p (set_closed true fh)); [|done|done].
    rewrite Hh. apply lookup_insert_eq.
Qed.

(** Claim C10.  [delWriter] decrements [readWriters] and sets
    [readWriterClosing] also when the handle is not among the writers.
    So for a read/write handle that is a writer, is opened and has been
    written to, [Flush] followed by [Close] calls [delWriter] twice: the
    counter, equal to the number of read/write handles among the writers
    before and after the [Flush], is one less than that number after the
    [Close], and is -1 when the handle was the only one. *)
Theorem Flush_then_Close_breaks_readWriters :
  (forall q (modifiedCacheFile : bool) (w : World X),
     RWHandle q ∉ writers (file w) ->
     exists b w', delWriter (RWHandle q) modifiedCacheFile w = Done b w' /\
       writers (file w') = writers (file w) /\
       readWriters (file w') = Int64.sub (readWriters (file w)) 1 /\
       readWriterClosing (file w') = true) /\
  (forall p fh (w : World X),
     handles w !! p = Some fh -> opened fh = true -> closed fh = false ->
     writeCalled fh = true -> Z.land (flags fh) accessModeMask <> os.O_RDONLY ->
     muRW (file w) = false ->
     NoDup (writers (file w)) -> RWHandle p ∈ writers (file w) ->
     readWriters (file w) = count_RW (writers (file w)) ->
     readWriters (file w) <= Int64.max_int ->
     exists r1 w1 r2 w2, Flush p w = Done r1 w1 /\ Close p w1 = Done r2 w2 /\
       readWriters (file w1) = count_RW (writers (file w1)) /\
       writers (file w2) = writers (file w1) /\
       readWriters (file w2) = count_RW (writers (file w2)) - 1 /\
       (count_RW (writers (file w)) = 1 -> readWriters (file w2) = -1)).
Proof.
  split.
  - intros q m w Hq.
    destruct (delWriter_effect (RWHandle q) m w) as (b & f' & Hrun & Hrw & Hws & Hcl & _).
    exists b, (set_file f' w). rewrite (remove_first_absent _ _ Hq) in Hws. done.
  - intros p fh w Hp Hop Hc Hwc Hrw Hmu Hnd Hin Hinv Hmax.
    destruct (Flush_effect p fh w Hp Hop Hc Hwc Hrw Hmu)
      as (r1 & w1 & Hrun1 & Hh1 & Hco1 & Hf1 & Hrw1 & Hws1).
    destruct (close_settled p fh w1) as (r2 & w2 & Hrun2 & _ & _ & _ & Hrw2 & Hws2).
    { by rewrite Hh1. }
    { done. }
    { by left. }
    { by simplify_eq. }
    destruct (Z.eqb_spec (Z.land (flags fh) accessModeMask) os.O_RDONLY); [done|].
    simpl in Hrw2, Hws2.
    destruct (remove_first_present _ _ Hin) as (l1 & l2 & Hsplit & Hrem).
    assert (RWHandle p ∉ l1 ++ l2) as Hnotin.
    { rewrite Hsplit in Hnd. apply NoDup_app in Hnd as (_ & Hd & Hnd2).
      apply NoDup_cons in Hnd2 as [Hn2 _]. intros [?|?]%elem_of_app; [|done].
      apply (Hd (RWHandle p)); [done|]. by left. }
    rewrite Hws1, Hrem in Hws2. rewrite (remove_first_absent _ _ Hnotin) in Hws2.
    assert (count_RW (writers (file w)) = count_RW (l1 ++ l2) + 1) as Hcount.
    { rewrite Hsplit, !count_RW_app. unfold count_RW at 2. simpl. unfold count_RW. lia. }
    assert (0 <= count_RW (l1 ++ l2)) as Hnn by (unfold count_RW; lia).
    pose proof Int64Facts.bounds as [Hmin Hmax'].
    rewrite Hinv, Hcount in Hrw1.
    rewrite Int64Facts.sub_small in Hrw1 by lia.
    rewrite Hrw1 in Hrw2. rewrite Int64Facts.sub_small in Hrw2 by lia.
    exists r1, w1, r2, w2. unfold Close.
    split; [done|]. split; [done|]. rewrite Hws2, Hws1, Hrem.
    repeat split; try lia.
Qed.

End Facts.


(** Claim C2, at a handle whose open is still pending.  In a VFS with
    cache mode Writes, opening an existing file with [O_WRONLY|O_CREATE]
    gives a read/write handle; its first [Close], with no I/O in
    between, takes [muRW] and then blocks for ever in [openPending],
    which locks [muRW] again. *)
Theorem Close_blocks_on_pending_create :
  let w := Sim.world (Some existing) CacheModeWrites Sim.quiet in
  exists w1,
    Open create_wronly w = Done (inr (RWHandle 0)) w1 /\
    Close 0%nat w1 = Blocked.
Proof.
  eexists. split.
  - vm_compute. reflexivity.
  - vm_compute. reflexivity.
Qed.

(** [O_RDONLY|O_TRUNC] has a valid access mode and the table gives it a
    write-only handle with the cache off, but [Open] returns [EINVAL]
    and calls no opener. *)
Lemma Open_rdonly_trunc_not_routed :
  let flags := Z.lor os.O_RDONLY os.O_TRUNC in
  let w := Sim.world (Some existing) CacheModeOff Sim.quiet in
  valid_access_mode flags /\
  selector (Opt_CacheMode w) (in_cache w) (read_intent flags) (write_intent flags)
    = Some VariantWriteOnly /\
  Open flags w = Done (inl EINVAL) w /\
  ~ routes_to flags w VariantWriteOnly.
Proof.
  repeat split.
  - left. reflexivity.
  - intros H. unfold routes_to in H. vm_compute in H. discriminate H.
Qed.

Lemma Open_routes_witness :
  let flags := create_wronly in
  let w := Sim.world None CacheModeWrites Sim.quiet in
  exists v,
    selector (Opt_CacheMode w) (in_cache w) (read_intent flags) (write_intent flags) = Some v /\
    routes_to flags w v.
Proof.
  apply (Open_routes create_wronly (Sim.world None CacheModeWrites Sim.quiet)).
  - right. left. reflexivity.
  - intros [H _]. vm_compute in H. discriminate H.
Defined.

Lemma newRWFileHandle_exclusive_witness :
  let flags := Z.lor os.O_RDWR (Z.lor os.O_CREATE os.O_EXCL) in
  let w := Sim.world (Some existing) CacheModeFull Sim.quiet in
  newRWFileHandle flags w = Done (inl EEXIST) w.
Proof.
  apply (newRWFileHandle_exclusive (Z.lor os.O_RDWR (Z.lor os.O_CREATE os.O_EXCL))
           (Sim.world (Some existing) CacheModeFull Sim.quiet)).
  - reflexivity.
  - discriminate.
Defined.

(** [written] is the world a create, then a write of three bytes, leave. *)
Lemma written_reached :
  let w := Sim.world None CacheModeWrites Sim.quiet in
  exists w1,
    Open create_wronly w = Done (inr (RWHandle 0)) w1 /\
    Write 0%nat [Byte.x61; Byte.x62; Byte.x63] w1 = Done (3, None) written.
Proof.
  eexists. split.
  - vm_compute. reflexivity.
  - vm_compute. reflexivity.
Qed.

(** With a cache file whose [Close] fails, [Release] on an open handle
    returns the wrapped error of [close], not nil. *)
Lemma Release_returns_close_error :
  let w := set_ext (Sim.mk true 3 true false 0) written in
  handles w !! 0%nat = Some (mkRW 3 create_wronly false true true true) /\
  exists w',
    close 0%nat w = Done (Some (Wrapped (Other 5) "failed to close cache file")) w' /\
    Release 0%nat w = Done (Some (Wrapped (Other 5) "failed to close cache file")) w'.
Proof.
  split; [reflexivity|]. eexists. split.
  - vm_compute. reflexivity.
  - vm_compute. reflexivity.
Qed.

Lemma Release_returns_close_result_witness :
  let w := set_ext (Sim.mk true 3 true false 0) written in
  Release 0%nat w = close 0%nat w /\
  forall r w', Release 0%nat w = Done r w' -> Release 0%nat w' = Done None w'.
Proof.
  apply (Release_returns_close_result 0%nat (mkRW 3 create_wronly false true true true)
           (set_ext (Sim.mk true 3 true false 0) written)).
  - reflexivity.
  - reflexivity.
Defined.

Lemma Flush_then_Close_breaks_readWriters_witness :
  exists r1 w1 r2 w2,
    Flush 0%nat written = Done r1 w1 /\ Close 0%nat w1 = Done r2 w2 /\
    readWriters (file w2) = -1.
Proof.
  destruct (proj2 (Flush_then_Close_breaks_readWriters (X := Sim.t)) 0%nat
              (mkRW 3 create_wronly false true true true) written)
    as (r1 & w1 & r2 & w2 & H1 & H2 & _ & _ & _ & H3).
  - reflexivity.
  - reflexivity.
  - reflexivity.
  - reflexivity.
  - vm_compute. discriminate.
  - reflexivity.
  - simpl. apply NoDup_singleton.
  - simpl. apply list_elem_of_singleton. reflexivity.
  - reflexivity.
  - vm_compute. discriminate.
  - exists r1, w1, r2, w2. split; [exact H1|]. split; [exact H2|]. apply H3. reflexivity.
Defined.

End VFSFacts.
